(** * PanelCleaner: page boxes, mask-fitting results and profile-sensitive steps

    A shallow embedding of [pcleaner/structures.py] (the [PageData] box
    registry with its overlap resolver, and the [MaskFittingResults] record)
    and of [pcleaner/gui/image_file.py] (the [ProcessStep] checksum tracker,
    the step table built by [ImageFile.__init__] and the lazily loaded
    image data) and of [pcleaner/gui/CustomQ/CElidedLabel.py], followed by
    the properties proved about them. *)

From Stdlib Require Import ZArith Floats Ascii String.
From stdpp Require Import base list gmap strings pretty.
From Equations Require Import Equations.

Open Scope Z_scope.

(** * Python exceptions *)

(** The exceptions the modelled code can raise.  [ExternalError] stands for
    whatever an external library call raises (libmagic on an unreadable
    file). *)
Inductive exn : Type :=
  | KeyError
  | AttributeError
  | ValueError
  | IndexError
  | ExternalError (msg : string).

Inductive result (A : Type) : Type :=
  | Ok (a : A)
  | Raise (e : exn).
Arguments Ok {A} a.
Arguments Raise {A} e.

#[global] Instance result_ret : MRet result := λ A a, Ok a.
#[global] Instance result_bind : MBind result := λ A B f m,
  match m with
  | Ok a => f a
  | Raise e => Raise e
  end.

(** * Boxes *)

(** A box is the tuple [(x1, y1, x2, y2)] of Python integers. *)
Definition Box : Type := Z * Z * Z * Z.

(** [boxes_overlap], local to [PageData.resolve_overlaps]. *)
Definition boxes_overlap (box1 box2 : Box) : bool :=
  let '(x1_min, y1_min, x1_max, y1_max) := box1 in
  let '(x2_min, y2_min, x2_max, y2_max) := box2 in
  let x_overlap := (x1_min <=? x2_max) && (x2_min <=? x1_max) in
  let y_overlap := (y1_min <=? y2_max) && (y2_min <=? y1_max) in
  x_overlap && y_overlap.

(** [merge_boxes], local to [PageData.resolve_overlaps]. *)
Definition merge_boxes (box1 box2 : Box) : Box :=
  let '(x1_min, y1_min, x1_max, y1_max) := box1 in
  let '(x2_min, y2_min, x2_max, y2_max) := box2 in
  let x_min := Z.min x1_min x2_min in
  let y_min := Z.min y1_min y2_min in
  let x_max := Z.max x1_max x2_max in
  let y_max := Z.max y1_max y2_max in
  (x_min, y_min, x_max, y_max).

(** [PageData.box_size]. *)
Definition box_size (box : Box) : Z :=
  let '(x1, y1, x2, y2) := box in (x2 - x1) * (y2 - y1).

(** The tuple built in the body of the loop of [PageData.grow_boxes]. *)
Definition grow_box (padding image_width image_height : Z) (box : Box) : Box :=
  let '(x1, y1, x2, y2) := box in
  (Z.max (x1 - padding) 0,
   Z.max (y1 - padding) 0,
   Z.min (x2 + padding) image_width,
   Z.min (y2 + padding) image_height).

(** The tuple built in the body of the loop of [PageData.right_pad_boxes]. *)
Definition right_pad_box (padding image_width : Z) (box : Box) : Box :=
  let '(x1, y1, x2, y2) := box in
  (x1, y1, Z.min (x2 + padding) image_width, y2).

(** Vocabulary of the statements: a well-formed box, a box inside the image,
    a box inside another one, and the integer points of a (closed) box. *)
Definition well_formed (box : Box) : Prop :=
  let '(x1, y1, x2, y2) := box in x1 ≤ x2 ∧ y1 ≤ y2.

Definition in_image (image_width image_height : Z) (box : Box) : Prop :=
  let '(x1, y1, x2, y2) := box in
  0 ≤ x1 ∧ x2 ≤ image_width ∧ 0 ≤ y1 ∧ y2 ≤ image_height.

Definition box_within (inner outer : Box) : Prop :=
  let '(x1, y1, x2, y2) := inner in
  let '(u1, v1, u2, v2) := outer in
  u1 ≤ x1 ∧ v1 ≤ y1 ∧ x2 ≤ u2 ∧ y2 ≤ v2.

Definition covers (box : Box) (p : Z * Z) : Prop :=
  let '(x1, y1, x2, y2) := box in
  x1 ≤ p.1 ≤ x2 ∧ y1 ≤ p.2 ≤ y2.

(** The union of a collection of boxes, as a set of integer points. *)
Definition covered (boxes : list Box) (p : Z * Z) : Prop :=
  ∃ box, box ∈ boxes ∧ covers box p.

(** * The overlap resolver *)

(** A Python [set] of boxes is a list without duplicates, in the order in
    which the set is iterated.  CPython iterates a set in table order,
    [set.pop] returns the first element in that order, and removing elements
    does not move the others; so [pop] takes the head of the list.  Which
    order a given set has depends on the hashes: the statements below
    quantify over it (see [is_set_of]).  Since the elements that are not
    absorbed keep their relative order, running the loop on every order of
    the initial set covers every choice [pop] could make. *)
Definition is_set_of (s l : list Box) : Prop :=
  NoDup s ∧ ∀ b, b ∈ s ↔ b ∈ l.

(** [merge_queue.remove(b)]: raises [KeyError] when [b] is not a member. *)
Definition set_remove (b : Box) (s : list Box) : result (list Box) :=
  if decide (b ∈ s) then Ok (filter (λ x, x ≠ b) s) else Raise KeyError.

(** The loop [for b in overlapping_boxes: box = merge_boxes(box, b);
    merge_queue.remove(b)], on the state [(box, merge_queue)]. *)
Fixpoint merge_overlapping (box : Box) (merge_queue overlapping_boxes : list Box)
    : result (Box * list Box) :=
  match overlapping_boxes with
  | [] => Ok (box, merge_queue)
  | b :: rest =>
      merge_queue' ← set_remove b merge_queue;
      merge_overlapping (merge_boxes box b) merge_queue' rest
  end.

Lemma set_remove_length b s s' :
  set_remove b s = Ok s' → (length s' ≤ length s)%nat.
Proof.
  unfold set_remove. case_decide; [|done].
  intros [= <-]. apply length_filter.
Qed.

Lemma merge_overlapping_length ov : ∀ box q box' q',
  merge_overlapping box q ov = Ok (box', q') → (length q' ≤ length q)%nat.
Proof.
  induction ov as [|b ov IH]; intros box q box' q'; simpl.
  - by intros [= _ <-].
  - destruct (set_remove b q) as [q1|e] eqn:Hrm; simpl; [|done].
    intros Hrest. apply IH in Hrest. apply set_remove_length in Hrm. lia.
Qed.

Definition inspect {A : Type} (a : A) : {b : A | a = b} := exist _ a eq_refl.

(** The loop [while merge_queue: ...] of [PageData.resolve_overlaps], on the
    state [(merge_queue, merged_boxes)].  The comprehension
    [[b for b in merge_queue if boxes_overlap(box, b)]] is evaluated once per
    iteration, against the box that was popped. *)
Equations? merge_while (merge_queue merged_boxes : list Box)
    : result (list Box) by wf (length merge_queue) lt :=
merge_while [] merged_boxes := Ok merged_boxes;
merge_while (box :: merge_queue) merged_boxes with inspect
    (merge_overlapping box merge_queue
       (filter (λ b, boxes_overlap box b) merge_queue)) := {
  | exist _ (Ok (box', merge_queue')) Hfor =>
      merge_while merge_queue' (merged_boxes ++ [box'])
  | exist _ (Raise e) _ => Raise e }.
Proof. apply merge_overlapping_length in Hfor. simpl. lia. Qed.

(** * PageData *)

Inductive BoxType : Type :=
  | BOX
  | EXTENDED_BOX
  | MERGED_EXT_BOX
  | REFERENCE_BOX.

Record PageData : Type := mkPageData {
  image_path : string;
  mask_path : string;
  original_path : string;
  scale : float;
  boxes : list Box;
  extended_boxes : list Box;
  merged_extended_boxes : list Box;
  reference_boxes : list Box;
  _image_size : option (Z * Z);
}.

(** [PageData.boxes_from_type].  The [case _] branch that raises
    [ValueError] has no counterpart: [BoxType] has no other member. *)
Definition boxes_from_type (self : PageData) (box_type : BoxType) : list Box :=
  match box_type with
  | BOX => boxes self
  | EXTENDED_BOX => extended_boxes self
  | MERGED_EXT_BOX => merged_extended_boxes self
  | REFERENCE_BOX => reference_boxes self
  end.

(** The list returned by [boxes_from_type] is the page's own list object:
    [boxes[i] = ...] on it updates the page.  [store_boxes] writes the
    updated list back to the field it came from.  The four collections
    are separate lists here: a page built with one list object in two of
    its fields, where an update through one field shows in the other, is
    outside this model: what is proved below about the fields other than
    the one that is updated holds for pages whose four collections are
    separate list objects. *)
Definition store_boxes (box_type : BoxType) (l : list Box) (self : PageData)
    : PageData :=
  match box_type with
  | BOX =>
      mkPageData (image_path self) (mask_path self) (original_path self)
        (scale self) l (extended_boxes self) (merged_extended_boxes self)
        (reference_boxes self) (_image_size self)
  | EXTENDED_BOX =>
      mkPageData (image_path self) (mask_path self) (original_path self)
        (scale self) (boxes self) l (merged_extended_boxes self)
        (reference_boxes self) (_image_size self)
  | MERGED_EXT_BOX =>
      mkPageData (image_path self) (mask_path self) (original_path self)
        (scale self) (boxes self) (extended_boxes self) l
        (reference_boxes self) (_image_size self)
  | REFERENCE_BOX =>
      mkPageData (image_path self) (mask_path self) (original_path self)
        (scale self) (boxes self) (extended_boxes self)
        (merged_extended_boxes self) l (_image_size self)
  end.

Definition store_image_size (size : Z * Z) (self : PageData) : PageData :=
  mkPageData (image_path self) (mask_path self) (original_path self)
    (scale self) (boxes self) (extended_boxes self)
    (merged_extended_boxes self) (reference_boxes self) (Some size).

(** [PageData.resolve_overlaps].  [set_iter l] is the set built by
    [set(l)], in its iteration order. *)
Definition resolve_overlaps (set_iter : list Box → list Box) (self : PageData)
    : result PageData :=
  let merge_queue := set_iter (extended_boxes self) in
  merged_boxes ← merge_while merge_queue [];
  Ok (store_boxes MERGED_EXT_BOX merged_boxes self).

(** ** The cached image size *)

(** [\d] on ASCII text: a decimal digit.  A description is modelled as a
    string of bytes; on text that is not ASCII Python's [\d] also matches
    the decimal digits of other scripts, which this model does not have,
    so what is proved about reading a size is stated for ASCII
    descriptions (see [is_ascii]). *)
Definition is_digit (c : ascii) : bool :=
  let n := nat_of_ascii c in (48 <=? n)%nat && (n <=? 57)%nat.

(** The longest run of digits at the start of [s], and what follows it:
    how a greedy [\d+] matches when the next thing to match is not a digit. *)
Fixpoint span_digits (s : string) : string * string :=
  match s with
  | String c s' =>
      if is_digit c
      then let '(digits, rest) := span_digits s' in (String c digits, rest)
      else (EmptyString, s)
  | EmptyString => (EmptyString, EmptyString)
  end.

(** A match of [(\d+) x (\d+)] that starts at the first character of [s],
    with its two groups. *)
Definition match_size_here (s : string) : option (string * string) :=
  match span_digits s with
  | (String c w, String " " (String "x" (String " " rest))) =>
      match span_digits rest with
      | (String d h, _) => Some (String c w, String d h)
      | (EmptyString, _) => None
      end
  | _ => None
  end.

(** [re.search(r"(\d+) x (\d+)", s)]: the leftmost match, [None] without one. *)
Fixpoint re_search_size (s : string) : option (string * string) :=
  match match_size_here s with
  | Some groups => Some groups
  | None =>
      match s with
      | String _ s' => re_search_size s'
      | EmptyString => None
      end
  end.

(** [int(s)] on a string of ASCII decimal digits.  CPython from 3.10.7
    on refuses a string of more than 4300 digits with [ValueError]; what
    is proved about reading a size is stated for runs of at most 4300
    digits. *)
Fixpoint int_digits (acc : Z) (s : string) : Z :=
  match s with
  | String c s' => int_digits (10 * acc + (Z.of_nat (nat_of_ascii c) - 48)) s'
  | EmptyString => acc
  end.

Definition int (s : string) : Z := int_digits 0 s.

(** [boxes[i] = f(boxes[i])] for [i] in the given indices; a list index out
    of range raises [IndexError]. *)
Fixpoint update_each (f : Box → Box) (indices : list nat) (boxes : list Box)
    : result (list Box) :=
  match indices with
  | [] => Ok boxes
  | i :: rest =>
      match boxes !! i with
      | Some box => update_each f rest (<[i := f box]> boxes)
      | None => Raise IndexError
      end
  end.

Section ImageSize.

(** [magic.from_file]: libmagic's description of the file at a path, or the
    exception it raises.  It reads the file system, so it is a parameter. *)
Variable magic_from_file : string → result string.

(** Lines 78 to 80 of [structures.py]: the size read off the description.
    [re.search] returns [None] when nothing matches, and [None.groups()]
    raises [AttributeError]. *)
Definition read_image_size (path : string) : result (Z * Z) :=
  metadata ← magic_from_file path;
  match re_search_size metadata with
  | Some (w, h) => Ok (int w, int h)
  | None => Raise AttributeError
  end.

(** The property [PageData.image_size]: the size and the page, whose cache
    is filled on the first access. *)
Definition image_size (self : PageData) : result ((Z * Z) * PageData) :=
  match _image_size self with
  | None =>
      size ← read_image_size (image_path self);
      Ok (size, store_image_size size self)
  | Some size => Ok (size, self)
  end.

(** [PageData.grow_boxes]. *)
Definition grow_boxes (padding : Z) (box_type : BoxType) (self : PageData)
    : result PageData :=
  let boxes := boxes_from_type self box_type in
  '((image_width, image_height), self) ← image_size self;
  boxes ← update_each (grow_box padding image_width image_height)
             (seq 0 (length boxes)) boxes;
  Ok (store_boxes box_type boxes self).

(** [PageData.right_pad_boxes]. *)
Definition right_pad_boxes (padding : Z) (box_type : BoxType) (self : PageData)
    : result PageData :=
  let boxes := boxes_from_type self box_type in
  '((image_width, _), self) ← image_size self;
  boxes ← update_each (right_pad_box padding image_width)
             (seq 0 (length boxes)) boxes;
  Ok (store_boxes box_type boxes self).

End ImageSize.

(** * MaskFittingResults *)

Section MaskFitting.

(** A PIL image: opaque here. *)
Variable Image : Type.

(** [best_mask] is [None] when no mask fits. *)
Record MaskFittingResults : Type := mkMaskFittingResults {
  best_mask : option Image;
  median_color : Z;
  mask_coords : Z * Z;
  analytics_page_path : string;
  analytics_std_deviation : float;
  analytics_mask_index : Z;
  mask_box : Box;
  debug_masks : list Image;
}.

Definition analytics (self : MaskFittingResults) : string * bool * Z * float :=
  (analytics_page_path self,
   (match best_mask self with None => false | Some _ => true end),
   analytics_mask_index self,
   analytics_std_deviation self).

Definition failed (self : MaskFittingResults) : bool :=
  match best_mask self with None => true | Some _ => false end.

Definition mask_data (self : MaskFittingResults) : option Image * Z * (Z * Z) :=
  (best_mask self, median_color self, mask_coords self).

Definition noise_mask_data (self : MaskFittingResults) : Box * float :=
  (mask_box self, analytics_std_deviation self).

End MaskFitting.

(** * Profiles and their checksum *)

(** An [attrs.Attribute], as [fields(cls).name] returns it: identified by
    the class that declares it and its name. *)
Definition Attribute : Type := string * string.

Definition fields (cls name : string) : Attribute := (cls, name).

(** [zlib.crc32]: CRC-32 (reflected polynomial [0xEDB88320]), bit by bit. *)
Definition crc32_shift (c : Z) : Z :=
  if Z.testbit c 0 then Z.lxor (Z.shiftr c 1) 0xEDB88320 else Z.shiftr c 1.

Definition crc32_byte (crc : Z) (c : ascii) : Z :=
  Nat.iter 8 crc32_shift (Z.lxor crc (Z.of_nat (nat_of_ascii c))).

Fixpoint crc32_bytes (crc : Z) (data : string) : Z :=
  match data with
  | String c data' => crc32_bytes (crc32_byte crc c) data'
  | EmptyString => crc
  end.

Definition crc32 (data : string) : Z :=
  Z.lxor (crc32_bytes 0xFFFFFFFF data) 0xFFFFFFFF.

(** [sorted] on the items of a dict with string keys: insertion by key. *)
Fixpoint insert_by_key {A : Type} (item : string * A) (items : list (string * A))
    : list (string * A) :=
  match items with
  | [] => [item]
  | item' :: rest =>
      if String.leb item.1 item'.1 then item :: item' :: rest
      else item' :: insert_by_key item rest
  end.

Definition sort_by_key {A : Type} (items : list (string * A))
    : list (string * A) :=
  foldr insert_by_key [] items.

Fixpoint join (sep : string) (parts : list string) : string :=
  match parts with
  | [] => EmptyString
  | [part] => part
  | part :: rest => part +:+ sep +:+ join sep rest
  end.

Section Profile.

(** The values a profile holds in its leaves (numbers, strings, booleans,
    [None]) and the text [json.dumps] writes for each: the configuration
    classes of [pcleaner.config] are not among the sources, so both are
    parameters. *)
Variable atom : Type.
Variable json_atom : atom → string.

(** A value held by an attribute: a leaf, or an instance of an attrs class
    with the values of its attributes in declaration order. *)
#[warnings="-register-all"]
Inductive value : Type :=
  | Atom (a : atom)
  | Inst (cls : string) (attributes : list (string * value)).

(** A [cfg.Profile]: the values of the attributes of an instance of the
    attrs class [Profile]. *)
Definition Profile : Type := list (string * value).

Definition Profile_instance (profile : Profile) : value :=
  Inst "Profile" profile.

(** What [attrs.asdict] returns: dicts with attribute names as keys, in
    insertion order. *)
#[warnings="-register-all"]
Inductive json : Type :=
  | JAtom (a : atom)
  | JObject (items : list (string * json)).

(** The filter built by [attrs.filters.include] holds the frozenset of the
    attributes it was given and keeps an attribute when it is a member (it
    is given no class here).  [None] keeps everything. *)
Definition keeps (filter : option (gset Attribute)) (a : Attribute) : bool :=
  match filter with
  | None => true
  | Some attrs => bool_decide (a ∈ attrs)
  end.

(** [attrs.asdict(inst, filter=filter)]: the filter is asked at every
    level, and an attribute it drops is dropped with all it holds.  A leaf
    is kept as it is. *)
Fixpoint asdict (filter : option (gset Attribute)) (inst : value) : json :=
  match inst with
  | Atom a => JAtom a
  | Inst cls attributes =>
      JObject
        ((fix each (l : list (string * value)) : list (string * json) :=
            match l with
            | [] => []
            | (name, v) :: rest =>
                if keeps filter (fields cls name)
                then (name, asdict filter v) :: each rest
                else each rest
            end) attributes)
  end.

(** A dict key as [json.dumps] writes it: attribute names are identifiers,
    nothing in them needs escaping. *)
Definition json_key (name : string) : string :=
  String "034" name +:+ String "034" EmptyString.

(** [json.dumps(d, sort_keys=True)], with the default separators.  The
    output is ASCII ([ensure_ascii] is on), so [.encode()] gives the same
    bytes. *)
Fixpoint json_dumps (j : json) : string :=
  match j with
  | JAtom a => json_atom a
  | JObject items =>
      let written :=
        (fix each (l : list (string * json)) : list (string * string) :=
           match l with
           | [] => []
           | (key, v) :: rest => (key, json_dumps v) :: each rest
           end) items in
      "{" +:+ join ", " ((λ kv, json_key kv.1 +:+ ": " +:+ kv.2)
                           <$> sort_by_key written) +:+ "}"
  end.

(** ** ProcessStep *)

Record ProcessStep : Type := mkProcessStep {
  path : option string;
  description : string;
  _sensitivity_filter : option (gset Attribute);
  _current_profile_checksum : option Z;
}.

(** [ProcessStep.__init__]; [path] and [_current_profile_checksum] are the
    class attributes, both [None]. *)
Definition ProcessStep_init (description : string)
    (profile_sensitivity : option (list Attribute)) : ProcessStep :=
  mkProcessStep None description
    (match profile_sensitivity with
     | None => None
     | Some what => Some (list_to_set what)
     end)
    None.

Definition has_path (self : ProcessStep) : bool :=
  match path self with None => false | Some _ => true end.

(** [ProcessStep._profile_checksum]. *)
Definition _profile_checksum (self : ProcessStep) (profile : Profile) : Z :=
  let serialized_data :=
    json_dumps (asdict (_sensitivity_filter self) (Profile_instance profile)) in
  crc32 serialized_data.

(** [ProcessStep.update_checksum]. *)
Definition update_checksum (self : ProcessStep) (profile : Profile)
    : ProcessStep :=
  mkProcessStep (path self) (description self) (_sensitivity_filter self)
    (Some (_profile_checksum self profile)).

(** [ProcessStep.is_profile_changed]: [!=] between the stored checksum,
    which may be [None], and an integer. *)
Definition is_profile_changed (self : ProcessStep) (profile : Profile) : bool :=
  bool_decide (_current_profile_checksum self
               ≠ Some (_profile_checksum self profile)).

(** Two values agree on the attributes [attrs]: they are instances of the
    same class with the same attribute names, every attribute in [attrs]
    holds equal values in both, and what the other attributes hold agrees
    in turn (leaves outside [attrs] are free to differ). *)
Fixpoint agree_on (attrs : gset Attribute) (v1 v2 : value) : Prop :=
  match v1, v2 with
  | Atom _, Atom _ => True
  | Inst cls1 l1, Inst cls2 l2 =>
      cls1 = cls2 ∧
      (fix each (l1 l2 : list (string * value)) : Prop :=
         match l1, l2 with
         | [], [] => True
         | (name1, x1) :: rest1, (name2, x2) :: rest2 =>
             name1 = name2 ∧
             (if decide (fields cls1 name1 ∈ attrs) then x1 = x2
              else agree_on attrs x1 x2) ∧
             each rest1 rest2
         | _, _ => False
         end) l1 l2
  | _, _ => False
  end.

(** Two profiles agree on what a step tracks; a step that tracks
    everything ([None]) needs equal profiles. *)
Definition agree (filter : option (gset Attribute)) (p1 p2 : Profile) : Prop :=
  match filter with
  | None => p1 = p2
  | Some attrs => agree_on attrs (Profile_instance p1) (Profile_instance p2)
  end.

End Profile.

(** * The step table of ImageFile *)

Inductive Step : Type :=
  | input
  | ai_mask
  | initial_boxes
  | final_boxes
  | box_mask
  | cut_mask
  | mask_layers
  | final_mask
  | mask_overlay
  | masked_image
  | denoiser_mask
  | denoised_image.

(** The value [auto()] gives each member, which is the canonical order. *)
Definition Step_value (s : Step) : positive :=
  match s with
  | input => 1
  | ai_mask => 2
  | initial_boxes => 3
  | final_boxes => 4
  | box_mask => 5
  | cut_mask => 6
  | mask_layers => 7
  | final_mask => 8
  | mask_overlay => 9
  | masked_image => 10
  | denoiser_mask => 11
  | denoised_image => 12
  end%positive.

Definition Step_of_value (p : positive) : option Step :=
  match p with
  | 1 => Some input
  | 2 => Some ai_mask
  | 3 => Some initial_boxes
  | 4 => Some final_boxes
  | 5 => Some box_mask
  | 6 => Some cut_mask
  | 7 => Some mask_layers
  | 8 => Some final_mask
  | 9 => Some mask_overlay
  | 10 => Some masked_image
  | 11 => Some denoiser_mask
  | 12 => Some denoised_image
  | _ => None
  end%positive.

#[global] Instance Step_eq_dec : EqDecision Step.
Proof. solve_decision. Defined.

#[global] Instance Step_countable : Countable Step.
Proof.
  apply (inj_countable Step_value Step_of_value). by intros [].
Defined.

(** [A] comes before [B] in the canonical order. *)
Definition before (A B : Step) : Prop := (Step_value A < Step_value B)%positive.

(** The attribute tables of [ImageFile.__init__]. *)
Definition pro : string → Attribute := fields "Profile".
Definition gen : string → Attribute := fields "GeneralConfig".
Definition td : string → Attribute := fields "TextDetectorConfig".
Definition pp : string → Attribute := fields "PreprocessorConfig".
Definition mk : string → Attribute := fields "MaskerConfig".

(** [self.steps[step] = value].  Python evaluates [self.steps] first, which
    raises [AttributeError] on an object that has no such attribute, and
    then stores into the dict it found.  [self_steps] is that attribute of
    the object: [None] when it has none. *)
Definition steps_setitem (step : Step) (value : ProcessStep)
    (self_steps : option (gmap Step ProcessStep))
    : result (option (gmap Step ProcessStep)) :=
  match self_steps with
  | None => Raise AttributeError
  | Some steps => Ok (Some (<[step := value]> steps))
  end.

(** [ImageFile.__init__] from line 115 on, as it acts on the attribute
    [steps] of the object.  The class annotates
    [steps: dict[Step, ProcessStep]] and never assigns it, so an instance
    the class creates has no such attribute when [__init__] runs
    ([self_steps] is [None]) and the first assignment raises; an object
    holds a dict there only when a subclass or the code that creates it
    provides one.  [settings += [...]] extends the one list object in
    place, and each [ProcessStep] copies what it is given into its filter
    at once, so a later [+=] does not reach an earlier step;
    [settings + [...]] builds a new list and leaves [settings] as it
    was. *)
Definition ImageFile_init_steps (self_steps : option (gmap Step ProcessStep))
    : result (option (gmap Step ProcessStep)) :=
  let settings := [gen "input_size_scale"] in
  self_steps ← steps_setitem input (ProcessStep_init
    "The original image with the scale factor applied."
    (Some settings)) self_steps;

  let settings := settings ++ [td "model_path"] in
  self_steps ← steps_setitem ai_mask (ProcessStep_init
    "The rough mask generated by the AI." (Some settings)) self_steps;

  let settings := settings ++ [
    pp "box_min_size";
    pp "suspicious_box_min_size";
    pp "box_padding_initial";
    pp "box_right_padding_initial"
  ] in
  self_steps ← steps_setitem initial_boxes (ProcessStep_init
    "The outlines of the text boxes the AI found." (Some settings)) self_steps;

  let settings := settings ++ [pro "preprocessor"] in
  self_steps ← steps_setitem final_boxes (ProcessStep_init
    "The final boxes after expanding, merging and filtering unneeded boxes with OCR.
Green: initial boxes. Red: extended boxes. Purple: merged (final) boxes. Blue: reference boxes for denoising."
    (Some settings)) self_steps;
  self_steps ← steps_setitem box_mask (ProcessStep_init
    "The mask of the merged boxes." (Some settings)) self_steps;
  self_steps ← steps_setitem cut_mask (ProcessStep_init
    "The rough text detection mask with everything outside the box mask cut out."
    (Some settings)) self_steps;

  let settings := settings ++ [
    mk "mask_growth_step_pixels"; mk "mask_growth_steps"
  ] in
  self_steps ← steps_setitem mask_layers (ProcessStep_init
    "The different steps of growth around the cut mask displayed in different colors."
    (Some settings)) self_steps;

  let settings := settings ++ [
    mk "off_white_max_threshold";
    mk "mask_improvement_threshold";
    mk "mask_selection_fast";
    mk "mask_max_standard_deviation"
  ] in
  self_steps ← steps_setitem final_mask (ProcessStep_init
    "The collection of masks for each bubble that fit best."
    (Some settings)) self_steps;

  self_steps ← steps_setitem mask_overlay (ProcessStep_init
    "The input image with the final mask overlaid in color."
    (Some (settings ++ [mk "debug_mask_color"]))) self_steps;
  self_steps ← steps_setitem masked_image (ProcessStep_init
    "The input image with the final mask applied." (Some settings)) self_steps;

  let settings := settings ++ [pro "denoiser"] in
  self_steps ← steps_setitem denoiser_mask (ProcessStep_init
    "The final mask overlaid on a denoised portion of the input image."
    (Some settings)) self_steps;
  steps_setitem denoised_image (ProcessStep_init
    "The input image with the denoised mask applied." (Some settings)) self_steps.


(** * ImageFile: the lazily loaded data *)

Module ImageFile.

Section Lazy.

(** A decoded PIL image and a Qt pixmap: opaque. *)
Variable Image : Type.
Variable QPixmap : Type.

(** The lazily loaded part of an [ImageFile]: [thumbnail] and [size] are
    the class attributes, both [None], until [load_image] fills them. *)
Record t : Type := mk {
  path : string;
  thumbnail : option QPixmap;
  size : option (Z * Z);
}.

(** The state [__init__] leaves these attributes in. *)
Definition init (path : string) : t := mk path None None.

(** [ImageFile.data_loaded]. *)
Definition data_loaded (self : t) : bool :=
  match thumbnail self, size self with
  | Some _, Some _ => true
  | _, _ => false
  end.

(** [Image.open], the [size] of the image it returns, and the chain
    [image.copy()], [thumbnail.thumbnail(THUMBNAIL_SIZE)],
    [convert_PIL_to_QPixmap(thumbnail)]: PIL and Qt, so parameters. *)
Variable Image_open : string → result Image.
Variable Image_size : Image → Z * Z.
Variable make_thumbnail : Image → result QPixmap.

(** [ImageFile.load_image]: the object as the call leaves it, and the path
    it returns or the exception it raises.  [self.size] is assigned before
    the thumbnail is made. *)
Definition load_image (self : t) : t * result string :=
  match Image_open (path self) with
  | Raise e => (self, Raise e)
  | Ok image =>
      let self := mk (path self) (thumbnail self) (Some (Image_size image)) in
      match make_thumbnail image with
      | Raise e => (self, Raise e)
      | Ok pixmap =>
          let self := mk (path self) (Some pixmap) (size self) in
          (self, Ok (path self))
      end
  end.

End Lazy.

End ImageFile.

(** * CElidedLabel *)

Module CElidedLabel.

(** [Qt.TextElideMode]. *)
Inductive TextElideMode : Type :=
  | ElideLeft
  | ElideRight
  | ElideMiddle
  | ElideNone.

(** What [setElideMode] can be handed: one of the four modes, or any
    other object. *)
Inductive mode_argument : Type :=
  | Mode (mode : TextElideMode)
  | Other (repr : string).

Record t : Type := mk {
  _elided : bool;
  _content : string;
  _elideMode : TextElideMode;
}.

(** What a call does besides changing the label: it schedules a repaint
    ([self.update()]), draws text, or emits [elisionChanged]. *)
Inductive effect : Type :=
  | Update
  | DrawText (x y : Z) (text : string)
  | ElisionChanged (didElide : bool).

(** [CElidedLabel.__init__]. *)
Definition init (text : string) : t := mk false text ElideRight.

Definition text (self : t) : string := _content self.

Definition setText (newText : string) (self : t) : t * list effect :=
  (mk (_elided self) newText (_elideMode self), [Update]).

Definition isElided (self : t) : bool := _elided self.

Definition elideMode (self : t) : TextElideMode := _elideMode self.

(** [CElidedLabel.setElideMode]. *)
Definition setElideMode (mode : mode_argument) (self : t)
    : result (t * list effect) :=
  match mode with
  | Mode mode => Ok (mk (_elided self) (_content self) mode, [Update])
  | Other _ => Raise ValueError
  end.

(** [s[n:]] for a position [n] that is not negative. *)
Fixpoint string_from (n : nat) (s : string) : string :=
  match n, s with
  | O, _ => s
  | S n', String _ s' => string_from n' s'
  | S _, EmptyString => EmptyString
  end.

(** What Qt answers during one [paintEvent]: the geometry of the widget
    and of the font, the lines the text layout creates, each with the
    position in the text where it starts ([createLine] returns an invalid
    line once they are used up), and [fontMetrics.elidedText]. *)
Record Painter : Type := mkPainter {
  height : Z;
  width : Z;
  lineSpacing : Z;
  ascent : Z;
  lines : list nat;
  elidedText : string → TextElideMode → Z → string;
}.

(** [CElidedLabel.paintEvent].  The [while True] loop ends in [break]: its
    body runs once. *)
Definition paintEvent (qt : Painter) (self : t) : t * list effect :=
  let y := (height qt - lineSpacing qt) `div` 2 + ascent qt in
  let '(didElide, drawn) :=
    match lines qt with
    | [] => (false, [])
    | textStart :: more =>
        let lastLine := string_from textStart (_content self) in
        let elidedLastLine :=
          elidedText qt lastLine (_elideMode self) (width qt) in
        (match more with [] => false | _ :: _ => true end,
         [DrawText 0 y elidedLastLine])
    end in
  if bool_decide (didElide ≠ _elided self)
  then (mk didElide (_content self) (_elideMode self),
        drawn ++ [ElisionChanged didElide])
  else (self, drawn).

End CElidedLabel.

(** * Facts about boxes *)

Lemma boxes_overlap_sym a b : boxes_overlap a b = boxes_overlap b a.
Proof.
  destruct a as [[[a1 a2] a3] a4], b as [[[b1 b2] b3] b4]. simpl.
  rewrite (andb_comm (a1 <=? b3)), (andb_comm (a2 <=? b4)). done.
Qed.

Lemma boxes_overlap_point a b :
  well_formed a → well_formed b →
  boxes_overlap a b = true ↔ ∃ p, covers a p ∧ covers b p.
Proof.
  destruct a as [[[a1 a2] a3] a4], b as [[[b1 b2] b3] b4].
  unfold boxes_overlap, covers, well_formed. intros Ha Hb.
  rewrite !andb_true_iff, !Z.leb_le. split.
  - intros [[? ?] [? ?]].
    exists (Z.max a1 b1, Z.max a2 b2). simpl. lia.
  - intros [[x y] ?]. simpl in *. lia.
Qed.

Lemma box_within_refl a : box_within a a.
Proof. destruct a as [[[a1 a2] a3] a4]. simpl. lia. Qed.

Lemma box_within_trans a b c : box_within a b → box_within b c → box_within a c.
Proof.
  destruct a as [[[a1 a2] a3] a4], b as [[[b1 b2] b3] b4],
    c as [[[c1 c2] c3] c4]. simpl. lia.
Qed.

Lemma box_within_covers a b p : box_within a b → covers a p → covers b p.
Proof.
  destruct a as [[[a1 a2] a3] a4], b as [[[b1 b2] b3] b4], p as [x y].
  simpl. lia.
Qed.

Lemma merge_boxes_within_l a b : box_within a (merge_boxes a b).
Proof.
  destruct a as [[[a1 a2] a3] a4], b as [[[b1 b2] b3] b4]. simpl. lia.
Qed.

Lemma merge_boxes_within_r a b : box_within b (merge_boxes a b).
Proof.
  destruct a as [[[a1 a2] a3] a4], b as [[[b1 b2] b3] b4]. simpl. lia.
Qed.

Lemma foldl_merge_boxes_within_init l : ∀ box,
  box_within box (foldl merge_boxes box l).
Proof.
  induction l as [|b l IH]; intros box; simpl.
  - apply box_within_refl.
  - eapply box_within_trans; [apply merge_boxes_within_l | apply IH].
Qed.

Lemma foldl_merge_boxes_within_elem l : ∀ box b,
  b ∈ l → box_within b (foldl merge_boxes box l).
Proof.
  induction l as [|c l IH]; intros box b Hb; simpl.
  - by apply elem_of_nil in Hb.
  - apply elem_of_cons in Hb as [->|Hb].
    + eapply box_within_trans;
        [apply merge_boxes_within_r | apply foldl_merge_boxes_within_init].
    + by apply IH.
Qed.

(** * The loops of the resolver *)

Lemma filter_all {A} (P : A → Prop) `{∀ x, Decision (P x)} (l : list A) :
  (∀ x, x ∈ l → P x) → filter P l = l.
Proof.
  induction l as [|a l IH]; intros Hall; [done|].
  rewrite filter_cons_True by (apply Hall; left).
  f_equal. apply IH. intros x Hx. apply Hall. by right.
Qed.

Lemma filter_iff_in {A} (P Q : A → Prop)
    `{∀ x, Decision (P x)} `{∀ x, Decision (Q x)} (l : list A) :
  (∀ x, x ∈ l → P x ↔ Q x) → filter P l = filter Q l.
Proof.
  induction l as [|a l IH]; intros Hall; [done|].
  assert (filter P l = filter Q l) as Hl.
  { apply IH. intros x Hx. apply Hall. by right. }
  destruct (decide (P a)) as [HP|HP].
  - rewrite !filter_cons_True; [by f_equal|by apply Hall; [left|]|done].
  - rewrite !filter_cons_False; [done| |done].
    intros HQ. apply HP. apply Hall; [left|done].
Qed.

Lemma filter_none {A} (P : A → Prop) `{∀ x, Decision (P x)} (l : list A) :
  (∀ x, x ∈ l → ¬ P x) → filter P l = [].
Proof.
  induction l as [|a l IH]; intros Hall; [done|].
  rewrite filter_cons_False by (apply Hall; left).
  apply IH. intros x Hx. apply Hall. by right.
Qed.

Lemma set_remove_member b s :
  b ∈ s → set_remove b s = Ok (filter (λ x, x ≠ b) s).
Proof. intros Hb. unfold set_remove. by rewrite decide_True. Qed.

(** The [for] loop never raises when it is given distinct members of the
    queue: it returns the union of [box] with all of them and the queue
    without them. *)
Lemma merge_overlapping_members ov : ∀ box q,
  NoDup ov → (∀ b, b ∈ ov → b ∈ q) →
  merge_overlapping box q ov
  = Ok (foldl merge_boxes box ov, filter (λ x, x ∉ ov) q).
Proof.
  induction ov as [|b ov IH]; intros box q Hnd Hsub; simpl.
  - f_equal. f_equal. symmetry. apply filter_all.
    intros x _. apply not_elem_of_nil.
  - apply NoDup_cons in Hnd as [Hb Hnd].
    rewrite set_remove_member by (apply Hsub; left). simpl.
    rewrite IH; [|done|].
    + f_equal. f_equal. rewrite list_filter_filter.
      apply list_filter_iff. intros x. rewrite not_elem_of_cons. tauto.
    + intros x Hx. apply list_elem_of_filter. split; [|apply Hsub; by right].
      intros ->. done.
Qed.

Lemma merge_overlapping_filter box q :
  NoDup q →
  merge_overlapping box q (filter (λ b, boxes_overlap box b) q)
  = Ok (foldl merge_boxes box (filter (λ b, boxes_overlap box b) q),
        filter (λ b, ¬ boxes_overlap box b) q).
Proof.
  intros Hnd. rewrite merge_overlapping_members.
  - f_equal. f_equal. apply filter_iff_in. intros x Hx.
    rewrite list_elem_of_filter. tauto.
  - by apply NoDup_filter.
  - intros b Hb. by apply list_elem_of_filter in Hb as [_ Hb].
Qed.

Inductive merges : list Box → list Box → Prop :=
  | merges_nil : merges [] []
  | merges_pop box q out :
      merges (filter (λ b, ¬ boxes_overlap box b) q) out →
      merges (box :: q)
        (foldl merge_boxes box (filter (λ b, boxes_overlap box b) q) :: out).

Lemma merge_while_pop box q acc :
  NoDup q →
  merge_while (box :: q) acc
  = merge_while (filter (λ b, ¬ boxes_overlap box b) q)
      (acc ++ [foldl merge_boxes box (filter (λ b, boxes_overlap box b) q)]).
Proof.
  intros Hnd. simp merge_while.
  generalize (inspect (merge_overlapping box q
                         (filter (λ b, boxes_overlap box b) q))).
  intros [r Hr]. pose proof (merge_overlapping_filter box q Hnd) as Hfor.
  rewrite Hr in Hfor. destruct r as [[box' q']|e]; [|done].
  injection Hfor as -> ->. by simp merge_while.
Qed.

Lemma merge_while_merges n : ∀ q acc,
  (length q ≤ n)%nat → NoDup q →
  ∃ out, merge_while q acc = Ok (acc ++ out) ∧ merges q out.
Proof.
  induction n as [|n IH]; intros q acc Hlen Hnd.
  - destruct q; [|simpl in Hlen; lia].
    exists []. simp merge_while. rewrite app_nil_r. split; [done|constructor].
  - destruct q as [|box q].
    { exists []. simp merge_while. rewrite app_nil_r. split; [done|constructor]. }
    apply NoDup_cons in Hnd as [Hbox Hnd].
    rewrite merge_while_pop by done.
    destruct (IH (filter (λ b, ¬ boxes_overlap box b) q)
                (acc ++ [foldl merge_boxes box (filter (λ b, boxes_overlap box b) q)]))
      as (out & Hrun & Hm).
    + pose proof (length_filter (λ b, ¬ boxes_overlap box b) q).
      simpl in Hlen. lia.
    + by apply NoDup_filter.
    + eexists. rewrite Hrun, <- app_assoc. simpl. split; [done|].
      by constructor.
Qed.

(** ** What a run of the loop guarantees *)

Lemma merges_within q out :
  merges q out → ∀ b, b ∈ q → ∃ o, o ∈ out ∧ box_within b o.
Proof.
  induction 1 as [|box q out Hm IH]; intros b Hb.
  - by apply elem_of_nil in Hb.
  - set (merged := foldl merge_boxes box (filter (λ b, boxes_overlap box b) q)).
    apply elem_of_cons in Hb as [->|Hb].
    + exists merged. split; [left|apply foldl_merge_boxes_within_init].
    + destruct (boxes_overlap box b) eqn:Hov.
      * exists merged. split; [left|].
        apply foldl_merge_boxes_within_elem, list_elem_of_filter.
        split; [by rewrite Hov|done].
      * destruct (IH b) as (o & Ho & Hbo).
        { apply list_elem_of_filter. split; [rewrite Hov; by intros []|done]. }
        exists o. split; [by right|done].
Qed.

Lemma merges_length q out : merges q out → (length out ≤ length q)%nat.
Proof.
  induction 1 as [|box q out Hm IH]; simpl; [done|].
  pose proof (length_filter (λ b, ¬ boxes_overlap box b) q). lia.
Qed.

(** Every output box contains a box of the queue: nothing is invented. *)
Lemma merges_source q out :
  merges q out → ∀ o, o ∈ out → ∃ b, b ∈ q ∧ box_within b o.
Proof.
  induction 1 as [|box q out Hm IH]; intros o Ho.
  - by apply elem_of_nil in Ho.
  - apply elem_of_cons in Ho as [->|Ho].
    + exists box. split; [left|apply foldl_merge_boxes_within_init].
    + destruct (IH o Ho) as (b & Hb & Hbo).
      apply list_elem_of_filter in Hb as [_ Hb].
      exists b. split; [by right|done].
Qed.

(** On a queue whose boxes are pairwise apart, the loop returns the queue. *)
Lemma merges_apart q out :
  merges q out → NoDup q →
  (∀ a b, a ∈ q → b ∈ q → a ≠ b → boxes_overlap a b = false) →
  out = q.
Proof.
  induction 1 as [|box q out Hm IH]; intros Hnd Hapart; [done|].
  apply NoDup_cons in Hnd as [Hbox Hnd].
  assert (∀ x, x ∈ q → ¬ boxes_overlap box x) as Hnone.
  { intros x Hx. rewrite (Hapart box x); [by intros []|left|by right|].
    intros ->. done. }
  rewrite (filter_none (λ b, boxes_overlap box b)) by done.
  rewrite (filter_all (λ b, ¬ boxes_overlap box b)) in IH, Hm by done.
  simpl. f_equal. apply IH; [done|].
  intros a b Ha Hb. apply Hapart; by right.
Qed.

(** [resolve_overlaps] returns, and its result is a run of the loop on the
    set of the extended boxes; the other fields are left as they were. *)
Lemma resolve_overlaps_merges set_iter self :
  is_set_of (set_iter (extended_boxes self)) (extended_boxes self) →
  ∃ out,
    resolve_overlaps set_iter self = Ok (store_boxes MERGED_EXT_BOX out self)
    ∧ merges (set_iter (extended_boxes self)) out.
Proof.
  intros [Hnd _]. unfold resolve_overlaps.
  destruct (merge_while_merges (length (set_iter (extended_boxes self)))
              (set_iter (extended_boxes self)) []) as (out & Hrun & Hm);
    [done|done|].
  exists out. rewrite Hrun. done.
Qed.

Lemma is_set_of_permutations s l :
  NoDup l → is_set_of s l → s ∈ permutations l.
Proof.
  intros Hl [Hs Hiff]. apply permutations_Permutation.
  symmetry. by apply NoDup_Permutation.
Qed.

Lemma is_set_of_remove_dups l : is_set_of (remove_dups l) l.
Proof.
  split; [apply NoDup_remove_dups|]. intros b. apply elem_of_remove_dups.
Qed.

(** * Claims about the overlap resolver *)

(** A page with the given extended boxes and nothing else. *)
Definition page_of (extended : list Box) : PageData :=
  mkPageData "page.png" "page_mask.png" "page.jpg" 1%float
    [] extended [] [] None.

(** The page on which the resolver is run again: its extended boxes are the
    merged boxes of the first run. *)
Definition feed_back (self : PageData) : PageData :=
  store_boxes EXTENDED_BOX (merged_extended_boxes self) self.

(** Two bars that share a corner, and a small box in the empty corner of
    their bounding box: it overlaps neither bar. *)
Definition bar_h : Box := (0, 0, 10, 2).
Definition bar_v : Box := (0, 0, 2, 10).
Definition dot : Box := (5, 5, 6, 6).
Definition bars_and_dot : list Box := [bar_h; bar_v; dot].

Lemma NoDup_bars_and_dot : NoDup bars_and_dot.
Proof. compute_done. Qed.

(** The resolver on the bars and the dot, whatever the order of the set:
    the output is the bounding box of the bars and the dot, in one of the
    two orders. *)
Lemma resolve_bars_and_dot set_iter :
  is_set_of (set_iter bars_and_dot) bars_and_dot →
  ∃ out,
    resolve_overlaps set_iter (page_of bars_and_dot)
    = Ok (store_boxes MERGED_EXT_BOX out (page_of bars_and_dot))
    ∧ (out = [(0, 0, 10, 10); dot] ∨ out = [dot; (0, 0, 10, 10)]).
Proof.
  intros Hset.
  apply (is_set_of_permutations _ _ NoDup_bars_and_dot) in Hset.
  unfold resolve_overlaps. simpl extended_boxes.
  cbv [permutations interleave fmap list_fmap mbind list_bind app bars_and_dot]
    in Hset.
  repeat (apply elem_of_cons in Hset as [Hq|Hset];
          [fold bars_and_dot in Hq; rewrite Hq|]);
    [eexists; split; [by vm_compute|auto]..|by apply elem_of_nil in Hset].
Qed.

Lemma resolve_bounding_box_and_dot set_iter out :
  out = [(0, 0, 10, 10); dot] ∨ out = [dot; (0, 0, 10, 10)] →
  is_set_of (set_iter out) out →
  resolve_overlaps set_iter
    (feed_back (store_boxes MERGED_EXT_BOX out (page_of bars_and_dot)))
  = Ok (store_boxes MERGED_EXT_BOX [(0, 0, 10, 10)]
          (feed_back (store_boxes MERGED_EXT_BOX out (page_of bars_and_dot)))).
Proof.
  intros [-> | ->] Hset.
  all: apply is_set_of_permutations in Hset; [|compute_done].
  all: unfold resolve_overlaps; simpl extended_boxes.
  all: cbv [permutations interleave fmap list_fmap mbind list_bind app] in Hset.
  all: repeat (apply elem_of_cons in Hset as [Hq|Hset]; [rewrite Hq|]);
         [by vm_compute..|by apply elem_of_nil in Hset].
Qed.

(** C1, at the failing input: on the two bars and the dot the resolver
    returns, for every order of the set, a collection in which two distinct
    boxes overlap (the bounding box of the bars and the dot inside it). *)
Theorem resolve_overlaps_leaves_overlap set_iter :
  is_set_of (set_iter bars_and_dot) bars_and_dot →
  ∃ self' o1 o2,
    resolve_overlaps set_iter (page_of bars_and_dot) = Ok self'
    ∧ o1 ∈ merged_extended_boxes self' ∧ o2 ∈ merged_extended_boxes self'
    ∧ o1 ≠ o2 ∧ boxes_overlap o1 o2 = true.
Proof.
  intros Hset. destruct (resolve_bars_and_dot set_iter Hset) as (out & Hrun & Hout).
  eexists. exists (0, 0, 10, 10), dot. split; [exact Hrun|].
  destruct Hout as [-> | ->]; simpl; set_solver.
Qed.

Lemma resolve_overlaps_leaves_overlap_witness :
  ∃ self' o1 o2,
    resolve_overlaps remove_dups (page_of bars_and_dot) = Ok self'
    ∧ o1 ∈ merged_extended_boxes self' ∧ o2 ∈ merged_extended_boxes self'
    ∧ o1 ≠ o2 ∧ boxes_overlap o1 o2 = true.
Proof.
  exact (resolve_overlaps_leaves_overlap remove_dups
           (is_set_of_remove_dups bars_and_dot)).
Defined.

(** C7, at the failing input: run on the two bars and the dot and then on
    its own output, the resolver returns a different collection the second
    time, for every order of the sets: the dot is in the first output and
    the second output is the bounding box alone. *)
Theorem resolve_overlaps_again_differs set_iter :
  (∀ l, is_set_of (set_iter l) l) →
  ∃ once twice,
    resolve_overlaps set_iter (page_of bars_and_dot) = Ok once
    ∧ resolve_overlaps set_iter (feed_back once) = Ok twice
    ∧ dot ∈ merged_extended_boxes once
    ∧ merged_extended_boxes twice = [(0, 0, 10, 10)].
Proof.
  intros Hset.
  destruct (resolve_bars_and_dot set_iter (Hset _)) as (out & Hrun & Hout).
  eexists _, _. split; [exact Hrun|].
  split; [by apply resolve_bounding_box_and_dot|].
  split; [|done]. destruct Hout as [-> | ->]; simpl; set_solver.
Qed.

Lemma resolve_overlaps_again_differs_witness :
  ∃ once twice,
    resolve_overlaps remove_dups (page_of bars_and_dot) = Ok once
    ∧ resolve_overlaps remove_dups (feed_back once) = Ok twice
    ∧ dot ∈ merged_extended_boxes once
    ∧ merged_extended_boxes twice = [(0, 0, 10, 10)].
Proof.
  exact (resolve_overlaps_again_differs remove_dups is_set_of_remove_dups).
Defined.

(** C10, at the failing input: on the two bars and the dot, for every
    order of the set, the dot lies within two distinct boxes of the
    output. *)
Theorem resolve_overlaps_box_in_two_outputs set_iter :
  is_set_of (set_iter bars_and_dot) bars_and_dot →
  ∃ self' o1 o2,
    resolve_overlaps set_iter (page_of bars_and_dot) = Ok self'
    ∧ o1 ∈ merged_extended_boxes self' ∧ o2 ∈ merged_extended_boxes self'
    ∧ o1 ≠ o2 ∧ box_within dot o1 ∧ box_within dot o2.
Proof.
  intros Hset. destruct (resolve_bars_and_dot set_iter Hset) as (out & Hrun & Hout).
  eexists. exists (0, 0, 10, 10), dot. split; [exact Hrun|].
  destruct Hout as [-> | ->]; simpl; repeat apply conj;
    first [lia | done | set_solver].
Qed.

Lemma resolve_overlaps_box_in_two_outputs_witness :
  ∃ self' o1 o2,
    resolve_overlaps remove_dups (page_of bars_and_dot) = Ok self'
    ∧ o1 ∈ merged_extended_boxes self' ∧ o2 ∈ merged_extended_boxes self'
    ∧ o1 ≠ o2 ∧ box_within dot o1 ∧ box_within dot o2.
Proof.
  exact (resolve_overlaps_box_in_two_outputs remove_dups
           (is_set_of_remove_dups bars_and_dot)).
Defined.

(** C2 as stated fails: on the two bars alone, in either order of the set,
    the output covers the point (5, 5), which no input box covers. *)
Lemma resolve_overlaps_covers_more :
  Forall (λ merge_queue, ∃ self',
      resolve_overlaps (λ _, merge_queue) (page_of [bar_h; bar_v]) = Ok self'
      ∧ covered (merged_extended_boxes self') (5, 5)
      ∧ ¬ covered (extended_boxes (page_of [bar_h; bar_v])) (5, 5))
    (permutations [bar_h; bar_v]).
Proof.
  repeat constructor.
  all: eexists; split; [by vm_compute|]; split.
  all: try (exists (0, 0, 10, 10); split; [left|simpl; lia]).
  all: intros (box & Hin & Hcov); simpl in Hin.
  all: repeat (apply elem_of_cons in Hin as [->|Hin]); simpl in Hcov; try lia.
  all: by apply elem_of_nil in Hin.
Qed.

(** C2, amended: the resolver returns, the extended boxes are left as they
    were, and every point covered by an extended box is covered by a
    merged box (the converse fails: a merged box is a bounding box). *)
Theorem resolve_overlaps_covers_input set_iter self :
  is_set_of (set_iter (extended_boxes self)) (extended_boxes self) →
  ∃ self',
    resolve_overlaps set_iter self = Ok self'
    ∧ extended_boxes self' = extended_boxes self
    ∧ ∀ p, covered (extended_boxes self) p →
           covered (merged_extended_boxes self') p.
Proof.
  intros Hset. destruct (resolve_overlaps_merges set_iter self Hset)
    as (out & Hrun & Hm).
  eexists. split; [exact Hrun|]. split; [done|].
  intros p (b & Hb & Hcov). apply Hset in Hb.
  destruct (merges_within _ _ Hm b Hb) as (o & Ho & Hbo).
  exists o. split; [done|]. by eapply box_within_covers.
Qed.

Lemma resolve_overlaps_covers_input_witness :
  ∃ self',
    resolve_overlaps remove_dups (page_of bars_and_dot) = Ok self'
    ∧ extended_boxes self' = extended_boxes (page_of bars_and_dot)
    ∧ ∀ p, covered (extended_boxes (page_of bars_and_dot)) p →
           covered (merged_extended_boxes self') p.
Proof.
  exact (resolve_overlaps_covers_input remove_dups (page_of bars_and_dot)
           (is_set_of_remove_dups bars_and_dot)).
Defined.

(** * Growing and padding the boxes of a page *)

Lemma update_each_from f (todo : list Box) : ∀ (done_ : list Box),
  update_each f (seq (length done_) (length todo)) (done_ ++ todo)
  = Ok (done_ ++ (f <$> todo)).
Proof.
  induction todo as [|box todo IH]; intros done_; simpl; [done|].
  rewrite list_lookup_middle by done.
  replace (<[length done_ := f box]> (done_ ++ box :: todo))
    with ((done_ ++ [f box]) ++ todo).
  - replace (S (length done_)) with (length (done_ ++ [f box]))
      by (rewrite length_app; simpl; lia).
    rewrite IH. by rewrite <- app_assoc.
  - rewrite <- app_assoc. simpl. symmetry.
    rewrite <- (Nat.add_0_r (length done_)).
    by rewrite insert_app_r.
Qed.

(** The loop over [range(len(boxes))] never raises and maps the loop body
    over the list. *)
Lemma update_each_all f (boxes : list Box) :
  update_each f (seq 0 (length boxes)) boxes = Ok (f <$> boxes).
Proof. apply (update_each_from f boxes []). Qed.

Section Growing.

Variable magic_from_file : string → result string.

Lemma image_size_cached self size :
  _image_size self = Some size →
  image_size magic_from_file self = Ok (size, self).
Proof. intros Hsize. unfold image_size. by rewrite Hsize. Qed.

Lemma image_size_unresolved self :
  _image_size self = None →
  image_size magic_from_file self
  = size ← read_image_size magic_from_file (image_path self);
    Ok (size, store_image_size size self).
Proof. intros Hsize. unfold image_size. by rewrite Hsize. Qed.

(** [grow_boxes] and [right_pad_boxes] on a page whose size is cached. *)
Lemma grow_boxes_cached padding box_type self w h :
  _image_size self = Some (w, h) →
  grow_boxes magic_from_file padding box_type self
  = Ok (store_boxes box_type
          (grow_box padding w h <$> boxes_from_type self box_type) self).
Proof.
  intros Hsize. unfold grow_boxes.
  rewrite (image_size_cached _ _ Hsize). simpl.
  by rewrite update_each_all.
Qed.

Lemma right_pad_boxes_cached padding box_type self w h :
  _image_size self = Some (w, h) →
  right_pad_boxes magic_from_file padding box_type self
  = Ok (store_boxes box_type
          (right_pad_box padding w <$> boxes_from_type self box_type) self).
Proof.
  intros Hsize. unfold right_pad_boxes.
  rewrite (image_size_cached _ _ Hsize). simpl.
  by rewrite update_each_all.
Qed.

End Growing.

(** A page with one box and no cached size, and a libmagic that describes
    every file as a 12 by 12 PNG. *)
Definition small_page : PageData :=
  mkPageData "page.png" "page_mask.png" "page.jpg" 1%float
    [(5, 5, 10, 10)] [] [] [] None.

Definition magic_12_by_12 (path : string) : result string :=
  Ok "PNG image data, 12 x 12, 8-bit/color RGB, non-interlaced"%string.

(** C4 as stated fails: on a page whose size is not resolved, [grow_boxes]
    and [right_pad_boxes] do not fail; they read the size from the file,
    cache it and go on with it. *)
Lemma grow_boxes_unresolved_size_proceeds :
  _image_size small_page = None
  ∧ grow_boxes magic_12_by_12 3 BOX small_page
    = Ok (mkPageData "page.png" "page_mask.png" "page.jpg" 1%float
            [(2, 2, 12, 12)] [] [] [] (Some (12, 12)))
  ∧ right_pad_boxes magic_12_by_12 3 BOX small_page
    = Ok (mkPageData "page.png" "page_mask.png" "page.jpg" 1%float
            [(5, 5, 12, 10)] [] [] [] (Some (12, 12))).
Proof. by vm_compute. Qed.

(** C4, amended: on a page whose size is not resolved, [grow_boxes] and
    [right_pad_boxes] read the size from the description libmagic gives of
    the image file; when that yields a size they cache it and apply the
    growth or padding to every box of the collection with it, and when it
    raises they raise the same exception. *)
Theorem grow_boxes_unresolved_size magic_from_file padding box_type self :
  _image_size self = None →
  match read_image_size magic_from_file (image_path self) with
  | Ok (w, h) =>
      grow_boxes magic_from_file padding box_type self
      = Ok (store_boxes box_type
              (grow_box padding w h <$> boxes_from_type self box_type)
              (store_image_size (w, h) self))
      ∧ right_pad_boxes magic_from_file padding box_type self
        = Ok (store_boxes box_type
                (right_pad_box padding w <$> boxes_from_type self box_type)
                (store_image_size (w, h) self))
  | Raise e =>
      grow_boxes magic_from_file padding box_type self = Raise e
      ∧ right_pad_boxes magic_from_file padding box_type self = Raise e
  end.
Proof.
  intros Hsize. unfold grow_boxes, right_pad_boxes.
  rewrite (image_size_unresolved _ _ Hsize).
  destruct (read_image_size magic_from_file (image_path self))
    as [[w h]|e]; simpl; [|done].
  by rewrite !update_each_all.
Qed.

Lemma grow_boxes_unresolved_size_witness :
  match read_image_size magic_12_by_12 (image_path small_page) with
  | Ok (w, h) =>
      grow_boxes magic_12_by_12 3 BOX small_page
      = Ok (store_boxes BOX
              (grow_box 3 w h <$> boxes_from_type small_page BOX)
              (store_image_size (w, h) small_page))
      ∧ right_pad_boxes magic_12_by_12 3 BOX small_page
        = Ok (store_boxes BOX
                (right_pad_box 3 w <$> boxes_from_type small_page BOX)
                (store_image_size (w, h) small_page))
  | Raise e =>
      grow_boxes magic_12_by_12 3 BOX small_page = Raise e
      ∧ right_pad_boxes magic_12_by_12 3 BOX small_page = Raise e
  end.
Proof.
  apply (grow_boxes_unresolved_size magic_12_by_12 3 BOX small_page).
  reflexivity.
Defined.

(** C8 as stated fails: shrinking the well-formed box (5, 5, 10, 10) by 4
    on a 12 by 12 page gives (9, 9, 6, 6), whose coordinates are inverted;
    [grow_boxes] stores it as it is. *)
Lemma grow_boxes_inverts_box :
  well_formed (5, 5, 10, 10)
  ∧ in_image 12 12 (5, 5, 10, 10)
  ∧ grow_box (-4) 12 12 (5, 5, 10, 10) = (9, 9, 6, 6)
  ∧ grow_boxes magic_12_by_12 (-4) BOX (store_image_size (12, 12) small_page)
    = Ok (mkPageData "page.png" "page_mask.png" "page.jpg" 1%float
            [(9, 9, 6, 6)] [] [] [] (Some (12, 12))).
Proof. repeat split; try (simpl; lia); by vm_compute. Qed.

(** C8, amended: for a well-formed box that lies within the image, the
    grown box is well formed exactly when the padding takes no more than
    the box has, [-2 * padding ≤ x2 - x1] and [-2 * padding ≤ y2 - y1];
    every padding that is not negative does. *)
Theorem grow_box_well_formed_iff padding image_width image_height x1 y1 x2 y2 :
  well_formed (x1, y1, x2, y2) →
  in_image image_width image_height (x1, y1, x2, y2) →
  (well_formed (grow_box padding image_width image_height (x1, y1, x2, y2))
   ↔ - (2 * padding) ≤ x2 - x1 ∧ - (2 * padding) ≤ y2 - y1)
  ∧ (0 ≤ padding →
     well_formed (grow_box padding image_width image_height (x1, y1, x2, y2))).
Proof. unfold well_formed, in_image, grow_box. lia. Qed.

Lemma grow_box_well_formed_iff_witness :
  (well_formed (grow_box (-2) 12 12 (5, 5, 10, 10))
   ↔ - (2 * -2) ≤ 10 - 5 ∧ - (2 * -2) ≤ 10 - 5)
  ∧ (0 ≤ -2 → well_formed (grow_box (-2) 12 12 (5, 5, 10, 10))).
Proof.
  apply (grow_box_well_formed_iff (-2) 12 12 5 5 10 10); simpl; lia.
Defined.

(** * Claims about MaskFittingResults *)

(** C9: when [best_mask] is [None], [failed] is true and the success flag
    of [analytics] is false; otherwise [failed] is false and the flag is
    true.  Both are total: nothing is raised. *)
Theorem failed_iff_no_best_mask (Image : Type) (self : MaskFittingResults Image) :
  match best_mask Image self with
  | None =>
      failed Image self = true ∧ (analytics Image self).1.1.2 = false
  | Some _ =>
      failed Image self = false ∧ (analytics Image self).1.1.2 = true
  end.
Proof. unfold failed, analytics. by destruct (best_mask Image self). Qed.

(** * Claims about ProcessStep *)

Section Checksum.

Variable atom : Type.
Variable json_atom : atom → string.

(** C5: [is_profile_changed] is true when no checksum is stored, false
    right after [update_checksum] with the same profile, and in general
    true exactly when the stored checksum is absent or differs from the
    checksum of the profile. *)
Theorem is_profile_changed_iff (self : ProcessStep) (profile : Profile atom) :
  (_current_profile_checksum self = None →
   is_profile_changed atom json_atom self profile = true)
  ∧ is_profile_changed atom json_atom
      (update_checksum atom json_atom self profile) profile = false
  ∧ (is_profile_changed atom json_atom self profile = true
     ↔ _current_profile_checksum self = None
       ∨ ∃ c, _current_profile_checksum self = Some c
              ∧ c ≠ _profile_checksum atom json_atom self profile).
Proof.
  unfold is_profile_changed. split_and!.
  - intros ->. by apply bool_decide_eq_true.
  - apply bool_decide_eq_false. simpl. unfold _profile_checksum. simpl.
    intros Hne. by apply Hne.
  - rewrite bool_decide_eq_true.
    destruct (_current_profile_checksum self) as [c|]; split.
    + intros Hne. right. exists c. split; [done|]. congruence.
    + intros [?|(c' & [= <-] & Hne)]; [done|]. congruence.
    + by left.
    + done.
Qed.

Lemma asdict_agree_on attrs cls (l1 l2 : list (string * value atom)) :
  agree_on atom attrs (Inst atom cls l1) (Inst atom cls l2) →
  asdict atom (Some attrs) (Inst atom cls l1)
  = asdict atom (Some attrs) (Inst atom cls l2).
Proof.
  simpl. intros [_ Hall]. f_equal.
  revert l2 Hall. induction l1 as [|[name1 x1] l1 IH]; intros [|[name2 x2] l2];
    try done.
  intros (<- & Hx & Hrest).
  destruct (decide (fields cls name1 ∈ attrs)) as [Hin|Hout].
  - rewrite !bool_decide_eq_true_2 by done. subst x2. f_equal. by apply IH.
  - rewrite !bool_decide_eq_false_2 by done. by apply IH.
Qed.

(** C6: two profiles that agree on what a step tracks have the same
    checksum for that step. *)
Theorem profile_checksum_agree (self : ProcessStep) (p1 p2 : Profile atom) :
  agree atom (_sensitivity_filter self) p1 p2 →
  _profile_checksum atom json_atom self p1
  = _profile_checksum atom json_atom self p2.
Proof.
  unfold _profile_checksum, agree.
  destruct (_sensitivity_filter self) as [attrs|].
  - intros Hagree. unfold Profile_instance. by rewrite (asdict_agree_on _ _ _ _ Hagree).
  - by intros ->.
Qed.

End Checksum.

(** Two profiles, written with the JSON text of their leaves, that differ
    in the strength of the denoiser filter only, and a step that tracks
    the preprocessor. *)
Definition sample_profile (filter_strength : string) : Profile string :=
  [("general"%string,
    Inst string "GeneralConfig" [("input_size_scale"%string, Atom string "1.0")]);
   ("preprocessor"%string,
    Inst string "PreprocessorConfig" [("box_min_size"%string, Atom string "400")]);
   ("denoiser"%string,
    Inst string "DenoiserConfig"
      [("filter_strength"%string, Atom string filter_strength)])].

Definition preprocessor_step : ProcessStep :=
  ProcessStep_init "boxes" (Some [pp "box_min_size"; pro "preprocessor"]).

Lemma profile_checksum_agree_witness :
  _profile_checksum string id preprocessor_step (sample_profile "7")
  = _profile_checksum string id preprocessor_step (sample_profile "9").
Proof.
  apply (profile_checksum_agree string id preprocessor_step
           (sample_profile "7") (sample_profile "9")).
  unfold agree, preprocessor_step, ProcessStep_init, sample_profile,
    Profile_instance.
  cbn [_sensitivity_filter agree_on].
  repeat first
    [ rewrite decide_True by (apply elem_of_list_to_set; compute_done)
    | rewrite decide_False by (rewrite elem_of_list_to_set; compute_done)
    | split | reflexivity ].
Defined.


(** * Claims about the step table *)

(** The settings each step is given, as the constructor has accumulated
    them when it builds the step. *)
Definition settings_up_to_final_mask : list Attribute :=
  [gen "input_size_scale"; td "model_path";
   pp "box_min_size"; pp "suspicious_box_min_size"; pp "box_padding_initial";
   pp "box_right_padding_initial"; pro "preprocessor";
   mk "mask_growth_step_pixels"; mk "mask_growth_steps";
   mk "off_white_max_threshold"; mk "mask_improvement_threshold";
   mk "mask_selection_fast"; mk "mask_max_standard_deviation"].

Definition settings_of (s : Step) : list Attribute :=
  match s with
  | input => take 1 settings_up_to_final_mask
  | ai_mask => take 2 settings_up_to_final_mask
  | initial_boxes => take 6 settings_up_to_final_mask
  | final_boxes | box_mask | cut_mask => take 7 settings_up_to_final_mask
  | mask_layers => take 9 settings_up_to_final_mask
  | final_mask | masked_image => settings_up_to_final_mask
  | mask_overlay => settings_up_to_final_mask ++ [mk "debug_mask_color"]
  | denoiser_mask | denoised_image =>
      settings_up_to_final_mask ++ [pro "denoiser"]
  end.


(** On an object that holds a dict the constructor returns, and every
    step is in the table, whatever the dict held before, with the
    settings above as its filter, no path and no checksum. *)
Lemma steps_lookup d :
  ∃ table,
    ImageFile_init_steps (Some d) = Ok (Some table)
    ∧ ∀ s, ∃ step,
        table !! s = Some step
        ∧ _sensitivity_filter step = Some (list_to_set (settings_of s))
        ∧ path step = None
        ∧ _current_profile_checksum step = None.
Proof.
  eexists. split; [reflexivity|].
  intros s.
  destruct s; rewrite ?lookup_insert_ne by done; rewrite lookup_insert_eq;
    eexists; (split; [reflexivity|split_and!; reflexivity]).
Qed.









(** * Further properties *)

(** The overlap test is symmetric, and a box overlaps itself exactly when
    it is well formed. *)
Theorem boxes_overlap_sym_refl a b :
  boxes_overlap a b = boxes_overlap b a
  ∧ (boxes_overlap a a = true ↔ well_formed a).
Proof.
  split; [apply boxes_overlap_sym|].
  destruct a as [[[x1 y1] x2] y2]. unfold boxes_overlap, well_formed.
  rewrite !andb_true_iff, !Z.leb_le. tauto.
Qed.

(** A grown box never reaches past the origin with its first corner nor
    past the image with its second one. *)
Theorem grow_box_in_image padding image_width image_height box :
  in_image image_width image_height
    (grow_box padding image_width image_height box).
Proof. destruct box as [[[x1 y1] x2] y2]. simpl. lia. Qed.

(** The resolver returns for every collection of extended boxes and every
    order of the set; every extended box lies within a merged box, every
    merged box contains an extended box, and there are no more merged
    boxes than distinct extended boxes. *)
Theorem resolve_overlaps_contains_input set_iter self :
  is_set_of (set_iter (extended_boxes self)) (extended_boxes self) →
  ∃ self',
    resolve_overlaps set_iter self = Ok self'
    ∧ (∀ b, b ∈ extended_boxes self →
         ∃ o, o ∈ merged_extended_boxes self' ∧ box_within b o)
    ∧ (∀ o, o ∈ merged_extended_boxes self' →
         ∃ b, b ∈ extended_boxes self ∧ box_within b o)
    ∧ (length (merged_extended_boxes self')
       ≤ length (set_iter (extended_boxes self)))%nat.
Proof.
  intros Hset. destruct (resolve_overlaps_merges set_iter self Hset)
    as (out & Hrun & Hm).
  eexists. split; [exact Hrun|]. simpl. split_and!.
  - intros b Hb. apply Hset in Hb. by apply (merges_within _ _ Hm).
  - intros o Ho. destruct (merges_source _ _ Hm o Ho) as (b & Hb & Hbo).
    exists b. split; [by apply Hset|done].
  - by apply merges_length.
Qed.

Lemma resolve_overlaps_contains_input_witness :
  ∃ self',
    resolve_overlaps remove_dups (page_of bars_and_dot) = Ok self'
    ∧ (∀ b, b ∈ extended_boxes (page_of bars_and_dot) →
         ∃ o, o ∈ merged_extended_boxes self' ∧ box_within b o)
    ∧ (∀ o, o ∈ merged_extended_boxes self' →
         ∃ b, b ∈ extended_boxes (page_of bars_and_dot) ∧ box_within b o)
    ∧ (length (merged_extended_boxes self')
       ≤ length (remove_dups (extended_boxes (page_of bars_and_dot))))%nat.
Proof.
  exact (resolve_overlaps_contains_input remove_dups (page_of bars_and_dot)
           (is_set_of_remove_dups bars_and_dot)).
Defined.

(** When no two distinct extended boxes overlap, the merged boxes are the
    extended boxes, each once, in the order of the set: on such a
    collection, and so on any output of its own that is free of overlaps,
    the resolver changes nothing. *)
Theorem resolve_overlaps_apart_unchanged set_iter self :
  is_set_of (set_iter (extended_boxes self)) (extended_boxes self) →
  (∀ a b, a ∈ extended_boxes self → b ∈ extended_boxes self →
          a ≠ b → boxes_overlap a b = false) →
  resolve_overlaps set_iter self
  = Ok (store_boxes MERGED_EXT_BOX (set_iter (extended_boxes self)) self).
Proof.
  intros Hset Hapart.
  destruct (resolve_overlaps_merges set_iter self Hset) as (out & Hrun & Hm).
  rewrite Hrun. do 2 f_equal. apply (merges_apart _ _ Hm); [apply Hset|].
  intros a b Ha Hb. apply Hapart; by apply Hset.
Qed.

Lemma resolve_overlaps_apart_unchanged_witness :
  resolve_overlaps remove_dups (page_of [bar_h; dot])
  = Ok (store_boxes MERGED_EXT_BOX
          (remove_dups (extended_boxes (page_of [bar_h; dot])))
          (page_of [bar_h; dot])).
Proof.
  apply (resolve_overlaps_apart_unchanged remove_dups (page_of [bar_h; dot])).
  - apply is_set_of_remove_dups.
  - simpl. intros a b Ha Hb Hne.
    apply elem_of_cons in Ha as [->|Ha]; [|apply list_elem_of_singleton in Ha as ->];
      (apply elem_of_cons in Hb as [->|Hb];
       [|apply list_elem_of_singleton in Hb as ->]); done.
Defined.

(** The scenario of the specification: the four boxes resolve to two
    merged boxes, for every order of the set. *)
Definition four_boxes : list Box :=
  [(0, 0, 10, 10); (5, 5, 15, 15); (100, 100, 110, 110); (102, 102, 108, 108)].

Theorem resolve_four_boxes set_iter :
  is_set_of (set_iter four_boxes) four_boxes →
  ∃ out,
    resolve_overlaps set_iter (page_of four_boxes)
    = Ok (store_boxes MERGED_EXT_BOX out (page_of four_boxes))
    ∧ (out = [(0, 0, 15, 15); (100, 100, 110, 110)]
       ∨ out = [(100, 100, 110, 110); (0, 0, 15, 15)]).
Proof.
  intros Hset. apply is_set_of_permutations in Hset; [|compute_done].
  unfold resolve_overlaps. simpl extended_boxes.
  cbv [permutations interleave fmap list_fmap mbind list_bind app four_boxes]
    in Hset.
  repeat (apply elem_of_cons in Hset as [Hq|Hset];
          [fold four_boxes in Hq; rewrite Hq|]);
    [eexists; split; [by vm_compute|auto]..|by apply elem_of_nil in Hset].
Qed.

Lemma resolve_four_boxes_witness :
  ∃ out,
    resolve_overlaps remove_dups (page_of four_boxes)
    = Ok (store_boxes MERGED_EXT_BOX out (page_of four_boxes))
    ∧ (out = [(0, 0, 15, 15); (100, 100, 110, 110)]
       ∨ out = [(100, 100, 110, 110); (0, 0, 15, 15)]).
Proof.
  exact (resolve_four_boxes remove_dups (is_set_of_remove_dups four_boxes)).
Defined.

Section EarlySteps.

Variable atom : Type.
Variable json_atom : atom → string.

Lemma asdict_no_top_level attrs (profile : Profile atom) :
  (∀ name, fields "Profile" name ∉ attrs) →
  asdict atom (Some attrs) (Profile_instance atom profile) = JObject atom [].
Proof.
  intros Hnone. unfold Profile_instance. simpl. f_equal.
  induction profile as [|[name v] profile IH]; [done|].
  by rewrite bool_decide_eq_false_2 by apply Hnone.
Qed.

(** A step whose sensitivity list names attributes of the nested
    configuration classes only, as the lists written for [input],
    [ai_mask] and [initial_boxes] do, sees nothing of a profile: the
    filter drops the attributes of the profile itself, and with them all
    they hold, so the dict is empty and the checksum is that of the text
    of an empty dict, for every profile. *)
Theorem nested_settings_checksum_constant description settings
    (profile : Profile atom) :
  (∀ name, fields "Profile" name ∉ settings) →
  _profile_checksum atom json_atom
    (ProcessStep_init description (Some settings)) profile
  = 2745614147.
Proof.
  intros Hnone. unfold _profile_checksum. cbn [ProcessStep_init _sensitivity_filter].
  rewrite asdict_no_top_level; [by vm_compute|].
  intros name Hin. apply elem_of_list_to_set in Hin. by apply (Hnone name).
Qed.

End EarlySteps.

Lemma nested_settings_checksum_constant_witness :
  _profile_checksum string id
    (ProcessStep_init "The original image with the scale factor applied."
       (Some [gen "input_size_scale"]))
    (sample_profile "7")
  = 2745614147.
Proof.
  apply (nested_settings_checksum_constant string id).
  intros name Hin. apply list_elem_of_singleton in Hin. inversion Hin.
Defined.

(** * More on boxes *)

(** Two well-formed boxes overlap exactly when some integer point lies in
    both: boxes that only touch along an edge or at a corner overlap. *)
Theorem boxes_overlap_iff_shared_point a b :
  well_formed a → well_formed b →
  boxes_overlap a b = true ↔ ∃ p, covers a p ∧ covers b p.
Proof. apply boxes_overlap_point. Qed.

Lemma boxes_overlap_iff_shared_point_witness :
  boxes_overlap (0, 0, 2, 2) (2, 2, 5, 5) = true
  ↔ ∃ p, covers (0, 0, 2, 2) p ∧ covers (2, 2, 5, 5) p.
Proof.
  apply (boxes_overlap_iff_shared_point (0, 0, 2, 2) (2, 2, 5, 5));
    simpl; lia.
Defined.

(** [merge_boxes] gives the smallest box that contains both: it contains
    each of them and lies within every box that does.  It is commutative,
    associative and idempotent, and well formed as soon as one of the two
    boxes is. *)
Theorem merge_boxes_least a b c :
  box_within a (merge_boxes a b)
  ∧ box_within b (merge_boxes a b)
  ∧ (box_within a c ∧ box_within b c ↔ box_within (merge_boxes a b) c)
  ∧ merge_boxes a b = merge_boxes b a
  ∧ merge_boxes (merge_boxes a b) c = merge_boxes a (merge_boxes b c)
  ∧ merge_boxes a a = a
  ∧ (well_formed a ∨ well_formed b → well_formed (merge_boxes a b)).
Proof.
  destruct a as [[[a1 a2] a3] a4], b as [[[b1 b2] b3] b4],
    c as [[[c1 c2] c3] c4].
  unfold box_within, merge_boxes, well_formed.
  split_and!; try lia.
  - f_equal; [f_equal; [f_equal|]|]; lia.
  - f_equal; [f_equal; [f_equal|]|]; lia.
  - f_equal; [f_equal; [f_equal|]|]; lia.
Qed.

(** Growing by a padding that is not negative never loses ground: for a
    well-formed box within the image the grown box contains the box, is
    well formed and within the image, and its size is at least the size
    of the box. *)
Theorem grow_box_contains padding image_width image_height box :
  0 ≤ padding → well_formed box → in_image image_width image_height box →
  box_within box (grow_box padding image_width image_height box)
  ∧ well_formed (grow_box padding image_width image_height box)
  ∧ in_image image_width image_height
      (grow_box padding image_width image_height box)
  ∧ box_size box ≤ box_size (grow_box padding image_width image_height box).
Proof.
  destruct box as [[[x1 y1] x2] y2].
  unfold box_within, grow_box, well_formed, in_image, box_size.
  intros Hp [Hx Hy] (H1 & H2 & H3 & H4). split_and!; try lia.
  apply Z.mul_le_mono_nonneg; lia.
Qed.

Lemma grow_box_contains_witness :
  box_within (5, 5, 10, 10) (grow_box 3 12 12 (5, 5, 10, 10))
  ∧ well_formed (grow_box 3 12 12 (5, 5, 10, 10))
  ∧ in_image 12 12 (grow_box 3 12 12 (5, 5, 10, 10))
  ∧ box_size (5, 5, 10, 10) ≤ box_size (grow_box 3 12 12 (5, 5, 10, 10)).
Proof.
  apply (grow_box_contains 3 12 12 (5, 5, 10, 10)); simpl; lia.
Defined.

(** Right padding by a padding that is not negative: for a well-formed
    box within the image, the padded box contains the box, is well formed
    and within the image, and only its right edge has moved. *)
Theorem right_pad_box_contains padding image_width image_height x1 y1 x2 y2 :
  0 ≤ padding → well_formed (x1, y1, x2, y2) →
  in_image image_width image_height (x1, y1, x2, y2) →
  ∃ x2', right_pad_box padding image_width (x1, y1, x2, y2) = (x1, y1, x2', y2)
         ∧ x2 ≤ x2' ≤ image_width
         ∧ well_formed (x1, y1, x2', y2)
         ∧ in_image image_width image_height (x1, y1, x2', y2).
Proof.
  unfold right_pad_box, well_formed, in_image. intros Hp [Hx Hy] (H1 & H2 & H3 & H4).
  eexists. split; [reflexivity|]. lia.
Qed.

Lemma right_pad_box_contains_witness :
  ∃ x2', right_pad_box 3 12 (5, 5, 10, 10) = (5, 5, x2', 10)
         ∧ 10 ≤ x2' ≤ 12
         ∧ well_formed (5, 5, x2', 10)
         ∧ in_image 12 12 (5, 5, x2', 10).
Proof.
  apply (right_pad_box_contains 3 12 12 5 5 10 10); simpl; lia.
Defined.

(** * More on the overlap resolver *)

Lemma Forall_filter_keep {A} (P Q : A → Prop) `{∀ x, Decision (Q x)}
    (l : list A) :
  Forall P l → Forall P (filter Q l).
Proof.
  rewrite !Forall_forall. intros HP x Hx.
  apply list_elem_of_filter in Hx as [_ Hx]. by apply HP.
Qed.

Lemma foldl_merge_boxes_closed (P : Box → Prop) l : ∀ box,
  (∀ a b, P a → P b → P (merge_boxes a b)) →
  P box → Forall P l → P (foldl merge_boxes box l).
Proof.
  induction l as [|b l IH]; intros box Hmerge Hbox Hl; simpl; [done|].
  apply Forall_cons in Hl as [Hb Hl]. apply IH; auto.
Qed.

Lemma merges_closed (P : Box → Prop) q out :
  (∀ a b, P a → P b → P (merge_boxes a b)) →
  merges q out → Forall P q → Forall P out.
Proof.
  intros Hmerge. induction 1 as [|box q out Hm IH]; intros Hq; [done|].
  apply Forall_cons in Hq as [Hbox Hq]. constructor.
  - apply foldl_merge_boxes_closed; [done..|]. by apply Forall_filter_keep.
  - apply IH. by apply Forall_filter_keep.
Qed.

Lemma merge_boxes_well_formed a b :
  well_formed a → well_formed b → well_formed (merge_boxes a b).
Proof.
  destruct a as [[[a1 a2] a3] a4], b as [[[b1 b2] b3] b4]. simpl. lia.
Qed.

Lemma merge_boxes_in_image w h a b :
  in_image w h a → in_image w h b → in_image w h (merge_boxes a b).
Proof.
  destruct a as [[[a1 a2] a3] a4], b as [[[b1 b2] b3] b4]. simpl. lia.
Qed.

(** The resolver keeps the boxes well formed and within the image: when
    every extended box is well formed, so is every merged box, and when
    every extended box lies within an image of some size, so does every
    merged box. *)
Theorem resolve_overlaps_keeps_shape set_iter self :
  is_set_of (set_iter (extended_boxes self)) (extended_boxes self) →
  ∃ self',
    resolve_overlaps set_iter self = Ok self'
    ∧ (Forall well_formed (extended_boxes self) →
       Forall well_formed (merged_extended_boxes self'))
    ∧ (∀ w h, Forall (in_image w h) (extended_boxes self) →
              Forall (in_image w h) (merged_extended_boxes self')).
Proof.
  intros Hset. destruct (resolve_overlaps_merges set_iter self Hset)
    as (out & Hrun & Hm).
  assert (∀ P : Box → Prop, Forall P (extended_boxes self) →
            Forall P (set_iter (extended_boxes self))) as Hall.
  { intros P HP. apply Forall_forall. intros b Hb. apply Hset in Hb.
    by apply (proj1 (Forall_forall _ _) HP). }
  eexists. split; [exact Hrun|]. simpl. split.
  - intros Hwf. apply (merges_closed _ _ _ merge_boxes_well_formed Hm); auto.
  - intros w h Him.
    apply (merges_closed _ _ _ (merge_boxes_in_image w h) Hm); auto.
Qed.

Lemma resolve_overlaps_keeps_shape_witness :
  ∃ self',
    resolve_overlaps remove_dups (page_of bars_and_dot) = Ok self'
    ∧ (Forall well_formed (extended_boxes (page_of bars_and_dot)) →
       Forall well_formed (merged_extended_boxes self'))
    ∧ (∀ w h, Forall (in_image w h) (extended_boxes (page_of bars_and_dot)) →
              Forall (in_image w h) (merged_extended_boxes self')).
Proof.
  exact (resolve_overlaps_keeps_shape remove_dups (page_of bars_and_dot)
           (is_set_of_remove_dups bars_and_dot)).
Defined.

(** No two boxes of the list overlap. *)
Fixpoint pairwise_apart (l : list Box) : Prop :=
  match l with
  | [] => True
  | a :: rest =>
      Forall (λ b, boxes_overlap a b = false) rest ∧ pairwise_apart rest
  end.

Lemma merges_popped q out :
  merges q out →
  ∃ popped,
    Forall2 box_within popped out
    ∧ (∀ b, b ∈ popped → b ∈ q)
    ∧ pairwise_apart popped.
Proof.
  induction 1 as [|box q out Hm (popped & Hwithin & Hsub & Hapart)].
  - exists []. split; [constructor|]. split; [done|done].
  - exists (box :: popped). split_and!.
    + constructor; [apply foldl_merge_boxes_within_init|done].
    + intros b [->|Hb]%elem_of_cons; [left|right].
      apply Hsub in Hb. by apply list_elem_of_filter in Hb as [_ Hb].
    + simpl. split; [|done]. apply Forall_forall. intros b Hb.
      apply Hsub, list_elem_of_filter in Hb as [Hb _].
      by destruct (boxes_overlap box b).
Qed.

(** What one pass does guarantee: each merged box contains an extended
    box of its own, the one that was popped for it, and no two of these
    popped boxes overlap.  So the resolver returns as many boxes as it
    found extended boxes that are pairwise apart. *)
Theorem resolve_overlaps_popped_apart set_iter self :
  is_set_of (set_iter (extended_boxes self)) (extended_boxes self) →
  ∃ self' popped,
    resolve_overlaps set_iter self = Ok self'
    ∧ Forall2 box_within popped (merged_extended_boxes self')
    ∧ (∀ b, b ∈ popped → b ∈ extended_boxes self)
    ∧ pairwise_apart popped.
Proof.
  intros Hset. destruct (resolve_overlaps_merges set_iter self Hset)
    as (out & Hrun & Hm).
  destruct (merges_popped _ _ Hm) as (popped & Hwithin & Hsub & Hapart).
  eexists _, popped. split; [exact Hrun|]. simpl. split_and!; [done| |done].
  intros b Hb. by apply Hset, Hsub.
Qed.

Lemma resolve_overlaps_popped_apart_witness :
  ∃ self' popped,
    resolve_overlaps remove_dups (page_of bars_and_dot) = Ok self'
    ∧ Forall2 box_within popped (merged_extended_boxes self')
    ∧ (∀ b, b ∈ popped → b ∈ extended_boxes (page_of bars_and_dot))
    ∧ pairwise_apart popped.
Proof.
  exact (resolve_overlaps_popped_apart remove_dups (page_of bars_and_dot)
           (is_set_of_remove_dups bars_and_dot)).
Defined.

Lemma foldl_merge_boxes_least l : ∀ box c,
  box_within box c → (∀ b, b ∈ l → box_within b c) →
  box_within (foldl merge_boxes box l) c.
Proof.
  induction l as [|b l IH]; intros box c Hbox Hl; simpl; [done|].
  apply IH; [|intros x Hx; apply Hl; by right].
  assert (box_within b c) as Hb by (apply Hl; left).
  destruct box as [[[a1 a2] a3] a4], b as [[[b1 b2] b3] b4],
    c as [[[c1 c2] c3] c4]. simpl in *. lia.
Qed.

(** When every two distinct extended boxes overlap, the resolver returns
    one box, the bounding box of them all: it contains every extended box
    and lies within every box that does. *)
Theorem resolve_overlaps_all_overlapping set_iter self :
  is_set_of (set_iter (extended_boxes self)) (extended_boxes self) →
  extended_boxes self ≠ [] →
  (∀ a b, a ∈ extended_boxes self → b ∈ extended_boxes self →
          a ≠ b → boxes_overlap a b = true) →
  ∃ self' o,
    resolve_overlaps set_iter self = Ok self'
    ∧ merged_extended_boxes self' = [o]
    ∧ (∀ b, b ∈ extended_boxes self → box_within b o)
    ∧ (∀ c, (∀ b, b ∈ extended_boxes self → box_within b c) → box_within o c).
Proof.
  intros Hset Hne Hall.
  destruct (resolve_overlaps_merges set_iter self Hset) as (out & Hrun & Hm).
  destruct Hset as [Hnd Hiff].
  destruct (set_iter (extended_boxes self)) as [|box q] eqn:Hq.
  { destruct (extended_boxes self) as [|b l]; [done|].
    exfalso. eapply not_elem_of_nil, Hiff. left. }
  apply NoDup_cons in Hnd as [Hbox Hnd].
  assert (∀ x, x ∈ q → boxes_overlap box x) as Hov.
  { intros x Hx. rewrite Hall; [done| | |].
    - apply Hiff. left.
    - apply Hiff. by right.
    - intros ->. done. }
  inversion Hm as [|box' q' out' Hm' Hb Hout]; subst.
  rewrite (filter_none (λ b, ¬ boxes_overlap box b)) in Hm'.
  2:{ intros x Hx Hnot. by apply Hnot, Hov. }
  inversion Hm'; subst.
  rewrite (filter_all (λ b, boxes_overlap box b)) in Hrun by done.
  eexists _, _. split; [exact Hrun|]. simpl. split; [done|]. split.
  - intros b [->|Hb]%Hiff%elem_of_cons.
    + apply foldl_merge_boxes_within_init.
    + by apply foldl_merge_boxes_within_elem.
  - intros c Hc. apply foldl_merge_boxes_least.
    + apply Hc, Hiff. left.
    + intros b Hb. apply Hc, Hiff. by right.
Qed.

Lemma resolve_overlaps_all_overlapping_witness :
  ∃ self' o,
    resolve_overlaps remove_dups (page_of [bar_h; bar_v]) = Ok self'
    ∧ merged_extended_boxes self' = [o]
    ∧ (∀ b, b ∈ extended_boxes (page_of [bar_h; bar_v]) → box_within b o)
    ∧ (∀ c, (∀ b, b ∈ extended_boxes (page_of [bar_h; bar_v]) → box_within b c)
            → box_within o c).
Proof.
  apply (resolve_overlaps_all_overlapping remove_dups (page_of [bar_h; bar_v])).
  - apply is_set_of_remove_dups.
  - discriminate.
  - simpl. intros a b Ha Hb Hne.
    apply elem_of_cons in Ha as [->|Ha]; [|apply list_elem_of_singleton in Ha as ->];
      (apply elem_of_cons in Hb as [->|Hb];
       [|apply list_elem_of_singleton in Hb as ->]); done.
Defined.

(** * More on the size cache and on growing *)

Section MoreGrowing.

Variable magic_from_file : string → result string.

(** What [image_size] returns when it returns: the size, now cached, and
    a page that differs from the one it was given in the cache at most. *)
Lemma image_size_Ok self size self' :
  image_size magic_from_file self = Ok (size, self') →
  _image_size self' = Some size
  ∧ (_image_size self = Some size ∧ self' = self
     ∨ _image_size self = None ∧ self' = store_image_size size self).
Proof.
  unfold image_size. destruct (_image_size self) as [sz|] eqn:Hsz.
  - intros [= <- <-]. auto.
  - destruct (read_image_size magic_from_file (image_path self)) as [sz|e];
      simpl; [|done].
    intros [= <- <-]. auto.
Qed.

Lemma grow_boxes_unfold padding box_type self :
  grow_boxes magic_from_file padding box_type self
  = '(size, self0) ← image_size magic_from_file self;
    Ok (store_boxes box_type
          (grow_box padding size.1 size.2 <$> boxes_from_type self box_type)
          self0).
Proof.
  unfold grow_boxes.
  destruct (image_size magic_from_file self) as [[[w h] self0]|e]; simpl;
    [|done].
  by rewrite update_each_all.
Qed.

Lemma right_pad_boxes_unfold padding box_type self :
  right_pad_boxes magic_from_file padding box_type self
  = '(size, self0) ← image_size magic_from_file self;
    Ok (store_boxes box_type
          (right_pad_box padding size.1 <$> boxes_from_type self box_type)
          self0).
Proof.
  unfold right_pad_boxes.
  destruct (image_size magic_from_file self) as [[[w h] self0]|e]; simpl;
    [|done].
  by rewrite update_each_all.
Qed.

End MoreGrowing.

Lemma image_size_keeps magic_from_file self size self' :
  image_size magic_from_file self = Ok (size, self') →
  _image_size self' = Some size
  ∧ (∀ box_type, boxes_from_type self' box_type = boxes_from_type self box_type)
  ∧ image_path self' = image_path self.
Proof.
  intros Hsize. destruct (image_size_Ok _ _ _ _ Hsize) as [Hcached Hself].
  split; [done|].
  destruct Hself as [[_ ->]|[_ ->]]; split; try done; by intros [].
Qed.



(** When [grow_boxes] returns, the size is cached, every box of the
    chosen collection has its first corner at or after the origin and its
    second corner at or before the image size, the collection has as many
    boxes as before, and the image path is what it was. *)
Theorem grow_boxes_within_image magic_from_file padding box_type self self' :
  grow_boxes magic_from_file padding box_type self = Ok self' →
  ∃ w h,
    _image_size self' = Some (w, h)
    ∧ Forall (in_image w h) (boxes_from_type self' box_type)
    ∧ length (boxes_from_type self' box_type)
      = length (boxes_from_type self box_type)
    ∧ image_path self' = image_path self.
Proof.
  rewrite grow_boxes_unfold.
  destruct (image_size magic_from_file self) as [[[w h] self0]|e] eqn:Hsize;
    simpl; [|done].
  intros [= <-]. exists w, h.
  destruct (image_size_keeps _ _ _ _ Hsize) as (Hcached & Hboxes & Hpath).
  split_and!.
  - by destruct box_type.
  - replace (boxes_from_type (store_boxes box_type _ self0) box_type)
      with (grow_box padding w h <$> boxes_from_type self box_type)
      by (by destruct box_type).
    apply Forall_fmap, Forall_forall. intros [[[x1 y1] x2] y2] _.
    simpl. lia.
  - replace (boxes_from_type (store_boxes box_type _ self0) box_type)
      with (grow_box padding w h <$> boxes_from_type self box_type)
      by (by destruct box_type).
    apply length_fmap.
  - rewrite <- Hpath. by destruct box_type.
Qed.

Lemma grow_boxes_within_image_witness :
  ∃ w h,
    _image_size (store_boxes BOX [(2, 2, 12, 12)]
                   (store_image_size (12, 12) small_page)) = Some (w, h)
    ∧ Forall (in_image w h)
        (boxes_from_type (store_boxes BOX [(2, 2, 12, 12)]
                            (store_image_size (12, 12) small_page)) BOX)
    ∧ length (boxes_from_type (store_boxes BOX [(2, 2, 12, 12)]
                                 (store_image_size (12, 12) small_page)) BOX)
      = length (boxes_from_type small_page BOX)
    ∧ image_path (store_boxes BOX [(2, 2, 12, 12)]
                    (store_image_size (12, 12) small_page))
      = image_path small_page.
Proof.
  apply (grow_boxes_within_image magic_12_by_12 3 BOX small_page).
  by vm_compute.
Defined.

Lemma grow_box_twice p q w h box :
  0 ≤ q → grow_box q w h (grow_box p w h box) = grow_box (p + q) w h box.
Proof.
  destruct box as [[[x1 y1] x2] y2]. unfold grow_box. intros Hq.
  cbv beta iota zeta. f_equal; [f_equal; [f_equal|]|]; lia.
Qed.

Lemma right_pad_box_twice p q w box :
  0 ≤ q → right_pad_box q w (right_pad_box p w box) = right_pad_box (p + q) w box.
Proof.
  destruct box as [[[x1 y1] x2] y2]. unfold right_pad_box. intros Hq.
  cbv beta iota zeta. f_equal. f_equal. lia.
Qed.

Lemma store_boxes_twice box_type l1 l2 self :
  store_boxes box_type l2 (store_boxes box_type l1 self)
  = store_boxes box_type l2 self.
Proof. by destruct box_type. Qed.

Lemma boxes_from_type_store box_type l self :
  boxes_from_type (store_boxes box_type l self) box_type = l.
Proof. by destruct box_type. Qed.

(** Growing composes: growing by [p] and then by a [q] that is not
    negative is growing by [p + q] at once, failures included, and so is
    right padding.  (The second call finds the size cached by the
    first.) *)
Theorem grow_boxes_twice magic_from_file p q box_type self :
  0 ≤ q →
  (grow_boxes magic_from_file p box_type self
     ≫= grow_boxes magic_from_file q box_type)
  = grow_boxes magic_from_file (p + q) box_type self
  ∧ (right_pad_boxes magic_from_file p box_type self
       ≫= right_pad_boxes magic_from_file q box_type)
    = right_pad_boxes magic_from_file (p + q) box_type self.
Proof.
  intros Hq. rewrite !grow_boxes_unfold, !right_pad_boxes_unfold.
  destruct (image_size magic_from_file self) as [[[w h] self0]|e] eqn:Hsize;
    simpl; [|done].
  destruct (image_size_Ok _ _ _ _ Hsize) as [Hcached _].
  rewrite grow_boxes_unfold, right_pad_boxes_unfold.
  rewrite !(image_size_cached _ _ (w, h)) by (by destruct box_type).
  simpl. rewrite !boxes_from_type_store, !store_boxes_twice.
  rewrite <- !list_fmap_compose. split; do 2 f_equal.
  - apply list_fmap_ext. intros i b _. simpl. by apply grow_box_twice.
  - apply list_fmap_ext. intros i b _. simpl. by apply right_pad_box_twice.
Qed.

Lemma grow_boxes_twice_witness :
  (grow_boxes magic_12_by_12 (-1) BOX small_page
     ≫= grow_boxes magic_12_by_12 3 BOX)
  = grow_boxes magic_12_by_12 (-1 + 3) BOX small_page
  ∧ (right_pad_boxes magic_12_by_12 (-1) BOX small_page
       ≫= right_pad_boxes magic_12_by_12 3 BOX)
    = right_pad_boxes magic_12_by_12 (-1 + 3) BOX small_page.
Proof. apply (grow_boxes_twice magic_12_by_12 (-1) 3 BOX small_page). lia. Defined.

(** * Reading the size off a description *)

Fixpoint all_digits (s : string) : bool :=
  match s with
  | String c s' => is_digit c && all_digits s'
  | EmptyString => true
  end.

Fixpoint no_digit (s : string) : bool :=
  match s with
  | String c s' => negb (is_digit c) && no_digit s'
  | EmptyString => true
  end.

(** The text is ASCII: every character is below 128. *)
Fixpoint is_ascii (s : string) : bool :=
  match s with
  | String c s' => (nat_of_ascii c <? 128)%nat && is_ascii s'
  | EmptyString => true
  end.

Definition starts_with_digit (s : string) : bool :=
  match s with
  | String c _ => is_digit c
  | EmptyString => false
  end.

Lemma string_app_cons c (s1 s2 : string) :
  String c s1 +:+ s2 = String c (s1 +:+ s2).
Proof. reflexivity. Qed.

Lemma string_app_assoc (s1 s2 s3 : string) :
  (s1 +:+ s2) +:+ s3 = s1 +:+ s2 +:+ s3.
Proof.
  induction s1 as [|c s1 IH]; [done|].
  by rewrite !string_app_cons, IH.
Qed.

Lemma string_app_nil_r (s : string) : s +:+ "" = s.
Proof.
  induction s as [|c s IH]; [done|]. by rewrite string_app_cons, IH.
Qed.

Lemma span_digits_all d rest :
  all_digits d = true → starts_with_digit rest = false →
  span_digits (d +:+ rest) = (d, rest).
Proof.
  intros Hd Hrest. induction d as [|c d IH].
  - change ("" +:+ rest) with rest.
    destruct rest as [|c rest]; [done|]. simpl in *. by rewrite Hrest.
  - simpl in Hd. apply andb_true_iff in Hd as [Hc Hd].
    rewrite string_app_cons. simpl. rewrite Hc, IH; done.
Qed.

Lemma match_size_here_digits w h rest :
  all_digits w = true → w ≠ EmptyString →
  all_digits h = true → h ≠ EmptyString →
  starts_with_digit rest = false →
  match_size_here (w +:+ " x " +:+ h +:+ rest) = Some (w, h).
Proof.
  intros Hw Hw0 Hh Hh0 Hrest. unfold match_size_here.
  rewrite (span_digits_all w _ Hw) by reflexivity.
  destruct w as [|c w]; [done|].
  change (" x " +:+ h +:+ rest)
    with (String " " (String "x" (String " " (h +:+ rest)))).
  cbv beta iota. rewrite (span_digits_all h _ Hh Hrest).
  by destruct h.
Qed.

Lemma re_search_size_skip pre s :
  no_digit pre = true → re_search_size (pre +:+ s) = re_search_size s.
Proof.
  induction pre as [|c pre IH]; [done|]. simpl no_digit.
  intros [Hc Hpre]%andb_true_iff. apply negb_true_iff in Hc.
  rewrite string_app_cons.
  cbn [re_search_size]. unfold match_size_here at 1.
  cbn [span_digits]. rewrite Hc. by apply IH.
Qed.

Lemma int_digits_app acc s1 s2 :
  int_digits acc (s1 +:+ s2) = int_digits (int_digits acc s1) s2.
Proof.
  revert acc. induction s1 as [|c s1 IH]; intros acc; [done|].
  rewrite string_app_cons. simpl. apply IH.
Qed.

Lemma pretty_N_go_app x : ∀ s, pretty_N_go x s = pretty_N_go x "" +:+ s.
Proof.
  induction (N.lt_wf_0 x) as [x _ IH]; intros s.
  destruct (decide (x = 0)%N) as [->|Hx].
  { by rewrite !pretty_N_go_0. }
  assert (x `div` 10 < x)%N as Hlt by (apply N.div_lt; lia).
  rewrite (pretty_N_go_step x s), (pretty_N_go_step x "") by lia.
  set (c := pretty_N_char (x `mod` 10)).
  rewrite (IH _ Hlt (String c s)), (IH _ Hlt (String c "")).
  by rewrite string_app_assoc.
Qed.

Lemma is_digit_pretty_N_char d : (d < 10)%N → is_digit (pretty_N_char d) = true.
Proof.
  intros Hd.
  assert (d = 0 ∨ d = 1 ∨ d = 2 ∨ d = 3 ∨ d = 4 ∨ d = 5 ∨ d = 6 ∨ d = 7
          ∨ d = 8 ∨ d = 9)%N as Hcases by lia.
  decompose [or] Hcases; subst; reflexivity.
Qed.

Lemma digit_value_pretty_N_char d :
  (d < 10)%N → Z.of_nat (nat_of_ascii (pretty_N_char d)) - 48 = Z.of_N d.
Proof.
  intros Hd.
  assert (d = 0 ∨ d = 1 ∨ d = 2 ∨ d = 3 ∨ d = 4 ∨ d = 5 ∨ d = 6 ∨ d = 7
          ∨ d = 8 ∨ d = 9)%N as Hcases by lia.
  decompose [or] Hcases; subst; reflexivity.
Qed.

Lemma all_digits_app s1 s2 :
  all_digits (s1 +:+ s2) = all_digits s1 && all_digits s2.
Proof.
  induction s1 as [|c s1 IH]; [done|].
  rewrite string_app_cons. simpl. by rewrite IH, andb_assoc.
Qed.

Lemma pretty_N_go_digits x :
  all_digits (pretty_N_go x "") = true
  ∧ int_digits 0 (pretty_N_go x "") = Z.of_N x.
Proof.
  induction (N.lt_wf_0 x) as [x _ IH].
  destruct (decide (x = 0)%N) as [->|Hx].
  { by rewrite pretty_N_go_0. }
  rewrite pretty_N_go_step, pretty_N_go_app by lia.
  destruct (IH (x `div` 10)%N) as [Hall Hint]; [apply N.div_lt; lia|].
  assert (x `mod` 10 < 10)%N as Hmod by (apply N.mod_lt; lia).
  split.
  - rewrite all_digits_app, Hall. simpl.
    by rewrite is_digit_pretty_N_char.
  - rewrite int_digits_app, Hint. simpl.
    rewrite digit_value_pretty_N_char by done.
    rewrite (N.div_mod x 10) at 3 by lia. lia.
Qed.

Lemma pretty_N_digits (x : N) :
  all_digits (pretty x) = true ∧ pretty x ≠ EmptyString
  ∧ int (pretty x) = Z.of_N x.
Proof.
  unfold pretty, pretty_N, int. case_decide as Hx; [by subst|].
  destruct (pretty_N_go_digits x) as [Hall Hint]. split_and!; [done| |done].
  rewrite pretty_N_go_step by lia. rewrite pretty_N_go_app.
  by destruct (pretty_N_go (x `div` 10) "").
Qed.

(** A description of the usual form is read as it should: when libmagic's
    text is ASCII and holds the width and the height in decimal, of at
    most 4300 digits each, around [" x "], with no digit before them and
    no digit right after them, [read_image_size] returns that width and
    that height. *)
Theorem read_image_size_of_description magic_from_file path before after (w h : N) :
  magic_from_file path
  = Ok (before +:+ pretty w +:+ " x " +:+ pretty h +:+ after) →
  is_ascii before = true → is_ascii after = true →
  (String.length (pretty w) ≤ 4300)%nat →
  (String.length (pretty h) ≤ 4300)%nat →
  no_digit before = true → starts_with_digit after = false →
  read_image_size magic_from_file path = Ok (Z.of_N w, Z.of_N h).
Proof.
  intros Hmagic _ _ _ _ Hbefore Hafter. unfold read_image_size.
  rewrite Hmagic. simpl.
  destruct (pretty_N_digits w) as (Hw & Hw0 & Hwint).
  destruct (pretty_N_digits h) as (Hh & Hh0 & Hhint).
  rewrite re_search_size_skip by done.
  assert (re_search_size (pretty w +:+ " x " +:+ pretty h +:+ after)
          = Some (pretty w, pretty h)) as ->.
  { destruct (pretty w +:+ " x " +:+ pretty h +:+ after) eqn:Hs;
      cbn [re_search_size]; rewrite <- Hs;
      by rewrite match_size_here_digits. }
  by rewrite Hwint, Hhint.
Qed.

Lemma read_image_size_of_description_witness :
  read_image_size
    (λ _, Ok ("PNG image data, " +:+ pretty 1600%N +:+ " x " +:+ pretty 2400%N
              +:+ ", 8-bit/color RGB, non-interlaced"))
    "page.png"
  = Ok (Z.of_N 1600, Z.of_N 2400).
Proof.
  apply (read_image_size_of_description _ "page.png" "PNG image data, "
           ", 8-bit/color RGB, non-interlaced" 1600 2400);
    first [reflexivity | vm_compute; lia].
Defined.

(** A description without a size is an error: when libmagic's text is
    ASCII and holds no digit at all, [read_image_size] raises
    [AttributeError], and so do [grow_boxes] and [right_pad_boxes] on a
    page whose size is not cached. *)
Theorem read_image_size_no_digit magic_from_file padding box_type self metadata :
  magic_from_file (image_path self) = Ok metadata →
  is_ascii metadata = true →
  no_digit metadata = true → _image_size self = None →
  read_image_size magic_from_file (image_path self) = Raise AttributeError
  ∧ grow_boxes magic_from_file padding box_type self = Raise AttributeError
  ∧ right_pad_boxes magic_from_file padding box_type self = Raise AttributeError.
Proof.
  intros Hmagic _ Hno Hsize.
  assert (read_image_size magic_from_file (image_path self)
          = Raise AttributeError) as Hread.
  { unfold read_image_size. rewrite Hmagic. simpl.
    rewrite <- (string_app_nil_r metadata) at 1.
    rewrite re_search_size_skip by done. done. }
  split; [done|].
  unfold grow_boxes, right_pad_boxes, image_size. rewrite Hsize, Hread. done.
Qed.

Lemma read_image_size_no_digit_witness :
  read_image_size (λ _, Ok "ASCII text"%string) (image_path small_page)
  = Raise AttributeError
  ∧ grow_boxes (λ _, Ok "ASCII text"%string) 3 BOX small_page
    = Raise AttributeError
  ∧ right_pad_boxes (λ _, Ok "ASCII text"%string) 3 BOX small_page
    = Raise AttributeError.
Proof.
  apply (read_image_size_no_digit (λ _, Ok "ASCII text"%string) 3 BOX
           small_page "ASCII text"); reflexivity.
Defined.

(** * More on the step table *)

Section MoreChecksum.

Variable atom : Type.
Variable json_atom : atom → string.

(** What the constructor does with the step table.  On an object without
    a [steps] attribute, as every instance the class creates is, it raises
    [AttributeError] at its first assignment and builds nothing.  On an
    object that holds a [steps] dict it returns with each of the twelve
    steps in the table, whatever the dict held before, with no path and no
    checksum: [has_path] is false and [is_profile_changed] is true for
    every profile. *)
Theorem fresh_steps_all_changed :
  ImageFile_init_steps None = Raise AttributeError
  ∧ ∀ d s (profile : Profile atom), ∃ table step,
      ImageFile_init_steps (Some d) = Ok (Some table)
      ∧ table !! s = Some step
      ∧ has_path step = false
      ∧ is_profile_changed atom json_atom step profile = true.
Proof.
  split; [reflexivity|]. intros d s profile.
  destruct (steps_lookup d) as (table & Hrun & Hall).
  destruct (Hall s) as (step & Hstep & _ & Hpath & Hsum).
  exists table, step. split; [done|]. split; [done|]. split.
  - unfold has_path. by rewrite Hpath.
  - unfold is_profile_changed. rewrite Hsum. by apply bool_decide_eq_true.
Qed.

(** The attributes of the profile itself that the filter keeps. *)
Definition kept_at_top (attrs : gset Attribute)
    (entry : string * value atom) : Prop :=
  fields "Profile" entry.1 ∈ attrs.

#[local] Instance kept_at_top_dec attrs entry : Decision (kept_at_top attrs entry).
Proof. unfold kept_at_top. apply _. Defined.

Lemma asdict_top_filter attrs (profile : list (string * value atom)) :
  asdict atom (Some attrs) (Profile_instance atom profile)
  = JObject atom
      ((λ entry, (entry.1, asdict atom (Some attrs) entry.2))
         <$> filter (kept_at_top attrs) profile).
Proof.
  unfold Profile_instance. cbn [asdict]. f_equal.
  induction profile as [|[name v] profile IH]; [done|].
  destruct (decide (fields "Profile" name ∈ attrs)) as [Hin|Hout].
  - rewrite filter_cons_True by exact Hin. rewrite fmap_cons, <- IH.
    unfold keeps. by rewrite bool_decide_eq_true_2.
  - rewrite filter_cons_False by exact Hout. rewrite <- IH.
    unfold keeps. by rewrite bool_decide_eq_false_2.
Qed.

Definition preprocessor_or_denoiser (entry : string * value atom) : Prop :=
  entry.1 = "preprocessor"%string ∨ entry.1 = "denoiser"%string.

#[local] Instance preprocessor_or_denoiser_dec entry :
  Decision (preprocessor_or_denoiser entry).
Proof. unfold preprocessor_or_denoiser. apply _. Defined.

Lemma settings_of_top s name :
  fields "Profile" name ∈ settings_of s →
  name = "preprocessor"%string ∨ name = "denoiser"%string.
Proof.
  intros Hin. destruct s; simpl in Hin;
    repeat (apply elem_of_cons in Hin as [Hin|Hin];
            [first [by inversion Hin | inversion Hin; auto]|]);
    by apply elem_of_nil in Hin.
Qed.

(** A step looks into a profile only through the attributes of the
    profile that are themselves in its sensitivity list: a setting of a
    nested configuration class is dropped together with the attribute of
    the profile that holds it unless that attribute is listed too.  For a
    step whose list names, of the profile's own attributes, at most
    [preprocessor] and [denoiser] (every list written in
    [ImageFile.__init__] is such a list), two profiles with equal
    [preprocessor] and [denoiser] have the same checksum, and the step
    marked as computed with one is not reported as changed for the other,
    whatever their general, text detector and masker settings. *)
Theorem checksum_preprocessor_denoiser description settings
    (p1 p2 : Profile atom) :
  (∀ name, fields "Profile" name ∈ settings →
           name = "preprocessor"%string ∨ name = "denoiser"%string) →
  filter preprocessor_or_denoiser p1 = filter preprocessor_or_denoiser p2 →
  _profile_checksum atom json_atom
    (ProcessStep_init description (Some settings)) p1
  = _profile_checksum atom json_atom
      (ProcessStep_init description (Some settings)) p2
  ∧ is_profile_changed atom json_atom
      (update_checksum atom json_atom
         (ProcessStep_init description (Some settings)) p1) p2 = false.
Proof.
  unfold Profile in *. intros Htop Hsame.
  set (step := ProcessStep_init description (Some settings)).
  assert (_profile_checksum atom json_atom step p1
          = _profile_checksum atom json_atom step p2) as Hsum.
  { unfold _profile_checksum, step. cbn [ProcessStep_init _sensitivity_filter].
    rewrite !asdict_top_filter. do 3 f_equal.
    assert (∀ p : list (string * value atom),
              filter (kept_at_top (list_to_set settings)) p
              = filter (kept_at_top (list_to_set settings))
                  (filter preprocessor_or_denoiser p)) as Hnarrow.
    { intros p. rewrite list_filter_filter. apply list_filter_iff.
      intros [name v]. unfold kept_at_top, preprocessor_or_denoiser. simpl.
      rewrite elem_of_list_to_set. split; [|tauto].
      intros Hin. split; [done|]. by apply Htop. }
    by rewrite (Hnarrow p1), (Hnarrow p2), Hsame. }
  split; [done|].
  unfold is_profile_changed. apply bool_decide_eq_false.
  intros Hne. apply Hne.
  change (Some (_profile_checksum atom json_atom step p1)
          = Some (_profile_checksum atom json_atom step p2)).
  by rewrite Hsum.
Qed.

End MoreChecksum.

(** Two profiles, written with the JSON text of their leaves, that differ
    in the scale of the input and in the growth steps of the masker. *)
Definition masker_profile (input_size_scale mask_growth_steps : string)
    : Profile string :=
  [("general"%string,
    Inst string "GeneralConfig"
      [("input_size_scale"%string, Atom string input_size_scale)]);
   ("preprocessor"%string,
    Inst string "PreprocessorConfig" [("box_min_size"%string, Atom string "400")]);
   ("masker"%string,
    Inst string "MaskerConfig"
      [("mask_growth_steps"%string, Atom string mask_growth_steps)])].

Lemma checksum_preprocessor_denoiser_witness :
  _profile_checksum string id
    (ProcessStep_init "mask layers" (Some (settings_of mask_layers)))
    (masker_profile "1.0" "11")
  = _profile_checksum string id
      (ProcessStep_init "mask layers" (Some (settings_of mask_layers)))
      (masker_profile "0.5" "4")
  ∧ is_profile_changed string id
      (update_checksum string id
         (ProcessStep_init "mask layers" (Some (settings_of mask_layers)))
         (masker_profile "1.0" "11"))
      (masker_profile "0.5" "4") = false.
Proof.
  apply (checksum_preprocessor_denoiser string id "mask layers"
           (settings_of mask_layers)
           (masker_profile "1.0" "11") (masker_profile "0.5" "4")).
  - apply settings_of_top.
  - reflexivity.
Defined.

(** * The lazily loaded data of an image file *)

(** [load_image] on an object without a thumbnail (a new one, or one on
    which an earlier load failed): the data is loaded afterwards exactly
    when the call returned, and then it returned the path of the object.
    When [Image.open] raises, the object is left as it was; when the image
    opens and making the thumbnail raises, the size has been set to the
    size of the image all the same, and there is still no thumbnail. *)
Theorem load_image_loaded (Image QPixmap : Type)
    (Image_open : string → result Image) (Image_size : Image → Z * Z)
    (make_thumbnail : Image → result QPixmap)
    (self : ImageFile.t QPixmap) :
  ImageFile.thumbnail QPixmap self = None →
  let '(self', outcome) :=
    ImageFile.load_image Image QPixmap Image_open Image_size make_thumbnail
      self in
  ImageFile.path QPixmap self' = ImageFile.path QPixmap self
  ∧ match outcome with
    | Ok returned =>
        returned = ImageFile.path QPixmap self
        ∧ ImageFile.data_loaded QPixmap self' = true
    | Raise e =>
        ImageFile.data_loaded QPixmap self' = false
        ∧ match Image_open (ImageFile.path QPixmap self) with
          | Raise e_open => e = e_open ∧ self' = self
          | Ok image =>
              make_thumbnail image = Raise e
              ∧ ImageFile.size QPixmap self' = Some (Image_size image)
              ∧ ImageFile.thumbnail QPixmap self' = None
          end
    end.
Proof.
  intros Hnot. unfold ImageFile.load_image.
  destruct (Image_open (ImageFile.path QPixmap self)) as [image|e].
  2:{ split; [done|]. split; [|done].
      unfold ImageFile.data_loaded. by rewrite Hnot. }
  destruct (make_thumbnail image) as [pixmap|e]; simpl; [done|].
  split; [done|]. split; [|done].
  unfold ImageFile.data_loaded. simpl. by rewrite Hnot.
Qed.

(** A page whose image opens and whose thumbnail cannot be made. *)
Lemma load_image_loaded_witness :
  let '(self', outcome) :=
    ImageFile.load_image unit unit (λ _, Ok ()) (λ _, (1600, 2400))
      (λ _, Raise (ExternalError "thumbnail"))
      (ImageFile.init unit "page.png") in
  ImageFile.path unit self' = "page.png"%string
  ∧ match outcome with
    | Ok returned =>
        returned = "page.png"%string
        ∧ ImageFile.data_loaded unit self' = true
    | Raise e =>
        ImageFile.data_loaded unit self' = false
        ∧ Raise (ExternalError "thumbnail") = Raise (A := unit) e
        ∧ ImageFile.size unit self' = Some (1600, 2400)
        ∧ ImageFile.thumbnail unit self' = None
    end.
Proof.
  apply (load_image_loaded unit unit (λ _, Ok ()) (λ _, (1600, 2400))
           (λ _, Raise (ExternalError "thumbnail"))
           (ImageFile.init unit "page.png")).
  reflexivity.
Defined.

(** * The elided label *)

Module ElidedLabelRuns.
Import CElidedLabel.

(** A call made on a label by its user or by Qt. *)
Inductive call : Type :=
  | CallSetText (newText : string)
  | CallSetElideMode (mode : mode_argument)
  | CallPaintEvent (qt : Painter).

(** The label and the effects after a sequence of calls; a call that
    raises leaves the label as it was. *)
Fixpoint run (calls : list call) (self : t) : t * list effect :=
  match calls with
  | [] => (self, [])
  | c :: rest =>
      let '(self1, effects1) :=
        match c with
        | CallSetText newText => setText newText self
        | CallSetElideMode mode =>
            match setElideMode mode self with
            | Ok r => r
            | Raise _ => (self, [])
            end
        | CallPaintEvent qt => paintEvent qt self
        end in
      let '(self2, effects2) := run rest self1 in
      (self2, effects1 ++ effects2)
  end.

(** The values [elisionChanged] was emitted with, in order. *)
Definition emitted (effects : list effect) : list bool :=
  omap (λ e, match e with ElisionChanged b => Some b | _ => None end) effects.

(** [b], [negb b], [b], ... *)
Fixpoint alternating (n : nat) (b : bool) : list bool :=
  match n with
  | O => []
  | S n' => b :: alternating n' (negb b)
  end.

Lemma emitted_app e1 e2 : emitted (e1 ++ e2) = emitted e1 ++ emitted e2.
Proof. apply omap_app. Qed.

Lemma paintEvent_emitted qt self :
  let '(self', effects) := paintEvent qt self in
  (emitted effects = [] ∧ _elided self' = _elided self)
  ∨ (emitted effects = [negb (_elided self)]
     ∧ _elided self' = negb (_elided self)).
Proof.
  unfold paintEvent.
  destruct (lines qt) as [|textStart [|second more]]; simpl;
    case_bool_decide as Hd; simpl; destruct (_elided self); simpl; auto;
    by destruct Hd.
Qed.

Lemma run_emitted calls : ∀ self,
  ∃ n, emitted (run calls self).2 = alternating n (negb (_elided self))
       ∧ _elided (run calls self).1
         = (if Nat.even n then _elided self else negb (_elided self)).
Proof.
  induction calls as [|c calls IH]; intros self; simpl.
  { by exists 0%nat. }
  destruct c as [newText|mode|qt].
  - destruct (IH (setText newText self).1) as (n & Hn & Hlast).
    simpl in *. destruct (run calls _) as [self2 effects2] eqn:Hrun.
    exists n. simpl in *. done.
  - destruct mode as [mode|repr]; simpl.
    + destruct (IH (mk (_elided self) (_content self) mode))
        as (n & Hn & Hlast).
      simpl in *. destruct (run calls _) as [self2 effects2] eqn:Hrun.
      exists n. simpl in *. done.
    + destruct (IH self) as (n & Hn & Hlast).
      destruct (run calls self) as [self2 effects2] eqn:Hrun.
      exists n. simpl in *. done.
  - pose proof (paintEvent_emitted qt self) as Hpaint.
    destruct (paintEvent qt self) as [self1 effects1].
    destruct (IH self1) as (n & Hn & Hlast).
    destruct (run calls self1) as [self2 effects2] eqn:Hrun.
    simpl in *. rewrite emitted_app.
    destruct Hpaint as [[-> Hsame]|[-> Hflip]].
    + exists n. rewrite Hn, Hlast, Hsame. done.
    + exists (S n). split.
      * rewrite Hn, Hflip. reflexivity.
      * rewrite Hlast, Hflip, Nat.even_succ, <- Nat.negb_even.
        by destruct (Nat.even n), (_elided self).
Qed.

End ElidedLabelRuns.

(** However a label is used after it is built, with whatever Qt answers
    while it paints, the values [elisionChanged] is emitted with
    alternate, starting with [True]: the signal is never emitted twice in
    a row with the same value, and [isElided] is the value it was last
    emitted with ([False] when it never was). *)
Theorem elisionChanged_alternates text calls :
  ∃ n,
    ElidedLabelRuns.emitted
      (ElidedLabelRuns.run calls (CElidedLabel.init text)).2
    = ElidedLabelRuns.alternating n true
    ∧ CElidedLabel.isElided
        (ElidedLabelRuns.run calls (CElidedLabel.init text)).1
      = Nat.odd n.
Proof.
  destruct (ElidedLabelRuns.run_emitted calls (CElidedLabel.init text))
    as (n & Hn & Hlast).
  exists n. split; [exact Hn|]. unfold CElidedLabel.isElided.
  rewrite Hlast. simpl. rewrite <- Nat.negb_even. by destruct (Nat.even n).
Qed.
